(** * A shallow embedding of the board engine of the 2048 game (src/js/Board.js)

    Tiles are JavaScript objects; the engine compares cells by reference
    ([!==]) and mutates tiles in place.  A tile is modelled as a record
    carrying an identifier [tid] standing for its object identity, its
    [value] and its [merged] flag.  A grid is the JavaScript array of rows,
    [list (list (option tile))], [None] standing for [null].  Randomness
    ([Math.random]) is passed in as the values the code derives from it. *)

From Stdlib Require Import ZArith String Bool Lia List.
Import ListNotations.
Open Scope Z_scope.

(** ** Tiles *)

Record tile := mkTile { tid : nat; value : Z; merged : bool }.

(** Modelled from the spec: the [Tile] class (src/js/Tile.js is not part of
    the sources).  A new tile carries its value and is not merged; two tiles
    can merge when their values are equal and neither has merged during the
    current move (spec, section 4.2, step 3b). *)
Definition newTile (id : nat) (v : Z) : tile := mkTile id v false.

(** Modelled from the spec: [Tile.prototype.canMergeWith]. *)
Definition canMergeWith (a b : tile) : bool :=
  (value a =? value b) && negb (merged a) && negb (merged b).

Definition setMerged (t : tile) (m : bool) : tile := mkTile (tid t) (value t) m.

(** [tile.merged = false] on an occupied cell. *)
Definition resetMerged (t : tile) : tile := setMerged t false.

(** Reference comparison [a !== b] on cells negated: [a === b]. *)
Definition same_ref (a b : option tile) : bool :=
  match a, b with
  | None, None => true
  | Some x, Some y => Nat.eqb (tid x) (tid y)
  | _, _ => false
  end.

(** ** JavaScript array helpers *)

(** [l[n] = x] on an index in range (the code never writes out of range). *)
Fixpoint upd_nth {A} (n : nat) (x : A) (l : list A) : list A :=
  match l, n with
  | [], _ => []
  | _ :: t, O => x :: t
  | h :: t, S n' => h :: upd_nth n' x t
  end.

(** [l.splice(n, 1)]. *)
Definition removeAt {A} (n : nat) (l : list A) : list A :=
  firstn n l ++ skipn (S n) l.

(** ** Board.slideAndMerge *)

(** [line.filter(tile => tile !== null)]. *)
Definition isTile (o : option tile) : bool :=
  match o with Some _ => true | None => false end.

(** One iteration of the [for] loop body at index [i]. *)
Definition sm_step (i : nat) (arr : list (option tile)) (score : Z)
  : list (option tile) * Z :=
  match nth i arr None, nth (S i) arr None with
  | Some a, Some b =>
      if canMergeWith a b then
        let a' := setMerged (mkTile (tid a) (value a * 2) (merged a)) true in
        (removeAt (S i) (upd_nth i (Some a') arr) ++ [None], score + value a')
      else (arr, score)
  | _, _ => (arr, score)
  end.

(** [for (let i = 0; i < arr.length - 1; i++)]: the bound is re-read at each
    iteration; [arr.length] never changes (one [splice] and one [push]), so
    [length arr] iterations are enough.  On an empty [arr] the JavaScript
    bound is [-1], which like the truncated [0] admits no iteration. *)
Fixpoint sm_loop (fuel i : nat) (arr : list (option tile)) (score : Z)
  : list (option tile) * Z :=
  match fuel with
  | O => (arr, score)
  | S f =>
      if Nat.ltb i (length arr - 1) then
        let '(arr', score') := sm_step i arr score in
        sm_loop f (S i) arr' score'
      else (arr, score)
  end.

Definition slideAndMerge (line : list (option tile)) : list (option tile) * Z :=
  let arr := filter isTile line in
  let '(arr', mergedScore) := sm_loop (length arr) 0 arr 0 in
  (arr' ++ repeat None (length line - length arr'), mergedScore).

(** The same scan as a structural recursion on the tiles of the line. *)
Fixpoint somes (l : list (option tile)) : list tile :=
  match l with
  | [] => []
  | Some t :: l' => t :: somes l'
  | None :: l' => somes l'
  end.

Fixpoint mergeTiles (l : list tile) : list tile * Z :=
  match l with
  | a :: ((b :: rest) as t) =>
      if canMergeWith a b then
        let '(r, s) := mergeTiles rest in
        (setMerged (mkTile (tid a) (value a * 2) (merged a)) true :: r,
         value a * 2 + s)
      else
        let '(r, s) := mergeTiles t in (a :: r, s)
  | _ => (l, 0)
  end.

(** ** The board *)

Inductive error := RangeError.

Inductive result (A : Type) := Ok (a : A) | Err (e : error).
Arguments Ok {A} a.
Arguments Err {A} e.

Definition grid_t := list (list (option tile)).

Record board := mkBoard { size : Z; grid : grid_t }.

(** [grid[r][c]]; out of range it reads [undefined], falsy like [null]. *)
Definition get (g : grid_t) (r c : nat) : option tile :=
  nth c (nth r g []) None.

(** [grid[r][c] = v]. *)
Definition set (g : grid_t) (r c : nat) (v : option tile) : grid_t :=
  upd_nth r (upd_nth c v (nth r g [])) g.

(** [Array(len).fill(null)]: [Array] raises a [RangeError] on a length that
    is not an array index. *)
Definition js_Array_fill_null (len : Z) : result (list (option tile)) :=
  if (0 <=? len) && (len <? 2 ^ 32) then Ok (repeat None (Z.to_nat len))
  else Err RangeError.

(** [Array.from({ length: this.size }, () => Array(this.size).fill(null))]:
    [Array.from] clamps a non-positive length to [0] and then never calls
    the callback. *)
Definition createEmptyBoard (size : Z) : result grid_t :=
  if size <=? 0 then Ok []
  else
    match js_Array_fill_null size with
    | Ok row => Ok (repeat row (Z.to_nat size))
    | Err e => Err e
    end.

(** [new Board(size)]. *)
Definition Board_new (size : Z) : result board :=
  match createEmptyBoard size with
  | Ok g => Ok (mkBoard size g)
  | Err e => Err e
  end.

(** [for (let r = 0; r < this.size; r++)] runs over [seq 0 (dim b)]. *)
Definition dim (b : board) : nat := Z.to_nat (size b).

(** [getEmptyCells()], in row-major order. *)
Definition getEmptyCells (b : board) : list (nat * nat) :=
  flat_map (fun r =>
    flat_map (fun c => if isTile (get (grid b) r c) then [] else [(r, c)])
      (seq 0 (dim b)))
    (seq 0 (dim b)).

(** [addRandomTile(TileClass)]: [idx] is
    [Math.floor(Math.random() * empty.length)], [coin] is
    [Math.random() < 0.9] and [id] the identity of the new tile object. *)
Definition addRandomTile (b : board) (idx : nat) (coin : bool) (id : nat)
  : bool * board :=
  let empty := getEmptyCells b in
  match empty with
  | [] => (false, b)
  | _ :: _ =>
      let '(r, c) := nth idx empty (0, 0)%nat in
      (true, mkBoard (size b)
               (set (grid b) r c (Some (newTile id (if coin then 2 else 4)))))
  end.

(** [reset(TileClass)]: [idx1] and [idx2] are the two draws
    [Math.floor(Math.random() * empty.length)], [id1] and [id2] the
    identities of the two new tiles. *)
Definition reset (b : board) (idx1 idx2 id1 id2 : nat) : result board :=
  match createEmptyBoard (size b) with
  | Err e => Err e
  | Ok g =>
      let b0 := mkBoard (size b) g in
      let empty := getEmptyCells b0 in
      if Nat.ltb (length empty) 2 then Ok b0
      else
        let '(r1, c1) := nth idx1 empty (0, 0)%nat in
        let g1 := set g r1 c1 (Some (newTile id1 2)) in
        let empty' := removeAt idx1 empty in
        let '(r2, c2) := nth idx2 empty' (0, 0)%nat in
        Ok (mkBoard (size b) (set g1 r2 c2 (Some (newTile id2 2))))
  end.

(** ** Board.move and Board.moveWithScore *)

(** The loop resetting the merged state of every tile. *)
Definition clearMerged (g : grid_t) : grid_t :=
  map (map (option_map resetMerged)) g.

(** The four branches differ only in the axis of the lines (columns for
    [up] and [down]: [vert = true]) and in reversing the line (for [down]
    and [right]: [rev = true]).  Line [k], position [j]. *)
Definition getAt (vert : bool) (g : grid_t) (k j : nat) : option tile :=
  if vert then get g j k else get g k j.

Definition setAt (vert : bool) (g : grid_t) (k j : nat) (v : option tile)
  : grid_t :=
  if vert then set g j k v else set g k j v.

(** [let line = []; for (...) line.push(this.grid[..][..]);] *)
Definition readLine (vert : bool) (n : nat) (g : grid_t) (k : nat)
  : list (option tile) :=
  map (fun j => getAt vert g k j) (seq 0 n).

(** [if (this.grid[..][..] !== newLine[j]) moved = true;
    this.grid[..][..] = newLine[j];] *)
Definition writeCell (vert : bool) (k : nat) (nl : list (option tile))
  (st : grid_t * bool) (j : nat) : grid_t * bool :=
  let '(g, m) := st in
  (setAt vert g k j (nth j nl None),
   m || negb (same_ref (getAt vert g k j) (nth j nl None))).

(** The inner write-back loop [for (let j = 0; j < this.size; j++)]. *)
Definition writeLine (vert : bool) (n k : nat) (nl : list (option tile))
  (st : grid_t * bool) : grid_t * bool :=
  fold_left (writeCell vert k nl) (seq 0 n) st.

(** The body of the outer loop of [moveWithScore]. *)
Definition lineWithScore (vert rev : bool) (n : nat)
  (st : grid_t * bool * Z) (k : nat) : grid_t * bool * Z :=
  let '(g, moved, totalScore) := st in
  let line := readLine vert n g k in
  let '(newLine, mergedScore) :=
    slideAndMerge (if rev then List.rev line else line) in
  let newLine := if rev then List.rev newLine else newLine in
  let totalScore := totalScore + mergedScore in
  let '(g', moved') := writeLine vert n k newLine (g, moved) in
  (g', moved', totalScore).

Definition linesWithScore (vert rev : bool) (n : nat) (g : grid_t)
  : grid_t * bool * Z :=
  fold_left (lineWithScore vert rev n) (seq 0 n) (g, false, 0).

(** [moveWithScore(direction, TileClass)]: the new board and
    [{ moved, score }]. *)
Definition moveWithScore (b : board) (direction : string)
  : board * (bool * Z) :=
  let n := dim b in
  let g0 := clearMerged (grid b) in
  let '(g', moved, score) :=
    if String.eqb direction "up" then linesWithScore true false n g0
    else if String.eqb direction "down" then linesWithScore true true n g0
    else if String.eqb direction "left" then linesWithScore false false n g0
    else if String.eqb direction "right" then linesWithScore false true n g0
    else (g0, false, 0) in
  (mkBoard (size b) g', (moved, score)).

(** The body of the outer loop of [move]. *)
Definition lineStep (vert rev : bool) (n : nat) (st : grid_t * bool) (k : nat)
  : grid_t * bool :=
  let '(g, moved) := st in
  let line := readLine vert n g k in
  let '(newLine, _) := slideAndMerge (if rev then List.rev line else line) in
  let newLine := if rev then List.rev newLine else newLine in
  writeLine vert n k newLine (g, moved).

Definition lines (vert rev : bool) (n : nat) (g : grid_t) : grid_t * bool :=
  fold_left (lineStep vert rev n) (seq 0 n) (g, false).

(** [move(direction, TileClass)]: the new board and [moved]. *)
Definition move (b : board) (direction : string) : board * bool :=
  let n := dim b in
  let g0 := clearMerged (grid b) in
  let '(g', moved) :=
    if String.eqb direction "up" then lines true false n g0
    else if String.eqb direction "down" then lines true true n g0
    else if String.eqb direction "left" then lines false false n g0
    else if String.eqb direction "right" then lines false true n g0
    else (g0, false) in
  (mkBoard (size b) g', moved).

(** ** Board.hasMoves *)

Definition neighbourOffsets : list (Z * Z) := [(0, 1); (1, 0); (-1, 0); (0, -1)].

(** One iteration of [for (const [dr, dc] of ...)]: the neighbour at
    offset [(dr, dc)] is on the board and holds a tile of the same value. *)
Definition sameNeighbour (b : board) (t : tile) (r c : nat) (o : Z * Z) : bool :=
  let '(dr, dc) := o in
  let nr := Z.of_nat r + dr in
  let nc := Z.of_nat c + dc in
  if (0 <=? nr) && (nr <? size b) && (0 <=? nc) && (nc <? size b) then
    match get (grid b) (Z.to_nat nr) (Z.to_nat nc) with
    | Some neighbor => value t =? value neighbor
    | None => false
    end
  else false.

Definition hasMoves (b : board) : bool :=
  existsb (fun r =>
    existsb (fun c =>
      match get (grid b) r c with
      | None => true
      | Some t => existsb (sameNeighbour b t r c) neighbourOffsets
      end) (seq 0 (dim b))) (seq 0 (dim b)).

(** * The controller (src/js/Game.js) and the key handler (src/js/main.js)

    Only the state the game logic reads back is modelled: the DOM updates
    ([updateView], [animateMovements], style changes) and the best score in
    [localStorage] are left out.  A [setTimeout] is modelled by the
    callback it schedules, in a list of pending timers; [Date.now()] and the
    random draws of [addRandomTile] are inputs. *)

(** The fields of a [Game] the logic uses ([isAnimating] is written by
    [init] and never read). *)
Record game := mkGame { score : Z; gboard : board; hasWon : bool; lastMoveTime : Z }.

(** The callbacks passed to [setTimeout]. *)
Inductive timer :=
| ClearTransform   (** [boardElement.style.transform = ''] after 25 ms *)
| SpawnAndRender   (** [addRandomTile] and [updateView] after 80 ms *)
| ShowGameOver     (** [showGameOverMessage] after 100 ms *)
| ShowWin          (** [showYouWinMessage] after 500 ms *)
| ClearFilter.     (** [boardElement.style.filter = ''] after 50 ms *)

(** [updateScore()]: the sum of the values of the tiles on the board. *)
Definition updateScore (b : board) : Z :=
  fold_left (fun score r =>
    fold_left (fun score c =>
      match get (grid b) r c with
      | Some tile => score + value tile
      | None => score
      end) (seq 0 (dim b)) score) (seq 0 (dim b)) 0.

(** The condition of [checkWinCondition]'s loops, at the first hit of
    which it returns. *)
Definition hasTile2048 (b : board) : bool :=
  existsb (fun r => existsb (fun c =>
    match get (grid b) r c with
    | Some tile => 2048 <=? value tile
    | None => false
    end) (seq 0 (dim b))) (seq 0 (dim b)).

(** [checkWinCondition()]. *)
Definition checkWinCondition (g : game) : game * list timer :=
  if hasWon g then (g, [])
  else if hasTile2048 (gboard g) then
    (mkGame (score g) (gboard g) true (lastMoveTime g), [ShowWin])
  else (g, []).

(** [move(direction)]: [now] is [Date.now()]; [idx], [coin] and [id] are
    the draws of the [addRandomTile] made at once on a rapid input. *)
Definition Game_move (g : game) (direction : string) (now : Z)
  (idx : nat) (coin : bool) (id : nat) : game * list timer :=
  let timeSinceLastMove := now - lastMoveTime g in
  let '(b1, (moved, moveScore)) := moveWithScore (gboard g) direction in
  if moved then
    let g1 := mkGame (score g + moveScore) b1 (hasWon g) now in
    let '(g2, t1) :=
      if timeSinceLastMove <? 150 then
        (mkGame (score g1) (snd (addRandomTile b1 idx coin id)) (hasWon g1)
           (lastMoveTime g1), [ClearTransform])
      else (g1, [SpawnAndRender]) in
    let '(g3, t2) := checkWinCondition g2 in
    (g3, t1 ++ t2 ++ (if hasMoves (gboard g3) then [] else [ShowGameOver]))
  else (mkGame (score g) b1 (hasWon g) (lastMoveTime g), [ClearFilter]).

(** [captureCurrentState()]: the value of each tile, [null] for no tile. *)
Definition captureCurrentState (b : board) : list (list (option Z)) :=
  map (fun r => map (fun c => option_map value (get (grid b) r c)) (seq 0 (dim b)))
    (seq 0 (dim b)).

(** [previousState[r][c]], then [... && previousState[r][c].value === v]. *)
Definition stateHas (st : list (list (option Z))) (v : Z) (r c : nat) : bool :=
  match nth c (nth r st []) None with
  | Some v' => v' =? v
  | None => false
  end.

(** [findTileOrigin(previousState, currentTile, currentR, currentC,
    direction)] on a board of size [n], for a tile of value [v]: the
    [up] and [left] loops count up from the current cell to [n - 1], the
    [down] and [right] loops count down from it to [0].  The caller
    ([animateMovements]) passes a cell of the board, [currentR, currentC <
    n]; past the rows of the state the source would read a row of
    [undefined]. *)
Definition findTileOrigin (n : nat) (st : list (list (option Z))) (v : Z)
  (currentR currentC : nat) (direction : string) : option (nat * nat) :=
  if String.eqb direction "up" then
    option_map (fun r => (r, currentC))
      (find (fun r => stateHas st v r currentC) (seq currentR (n - currentR)))
  else if String.eqb direction "down" then
    option_map (fun r => (r, currentC))
      (find (fun r => stateHas st v r currentC) (List.rev (seq 0 (S currentR))))
  else if String.eqb direction "left" then
    option_map (fun c => (currentR, c))
      (find (fun c => stateHas st v currentR c) (seq currentC (n - currentC)))
  else if String.eqb direction "right" then
    option_map (fun c => (currentR, c))
      (find (fun c => stateHas st v currentR c) (List.rev (seq 0 (S currentC))))
  else None.

(** main.js: the keys whose default action is prevented. *)
Definition gameKeys : list string :=
  ["ArrowUp"; "ArrowDown"; "ArrowLeft"; "ArrowRight"; "w"; "W"; "s"; "S";
   "a"; "A"; "d"; "D"]%string.

Definition js_includes (l : list string) (x : string) : bool :=
  existsb (String.eqb x) l.

(** The test messages of the handler. *)
Inductive message := YouWinMessage | GameOverMessage.

(** The [keydown] listener: whether [preventDefault()] is called, the
    direction passed to [game.move], and the test message shown. *)
Definition onKeydown (key : string) : bool * option string * option message :=
  let prevent := js_includes gameKeys key in
  let dir :=
    if js_includes ["ArrowUp"; "w"; "W"]%string key then Some "up"%string
    else if js_includes ["ArrowDown"; "s"; "S"]%string key then Some "down"%string
    else if js_includes ["ArrowLeft"; "a"; "A"]%string key then Some "left"%string
    else if js_includes ["ArrowRight"; "d"; "D"]%string key then Some "right"%string
    else None in
  let msg :=
    if js_includes ["v"; "V"]%string key then Some YouWinMessage
    else if js_includes ["b"; "B"]%string key then Some GameOverMessage
    else None in
  (prevent, dir, msg).

(** ** Specification vocabulary *)

(** The line written back by one branch of [moveWithScore]. *)
Definition resolvedLine (rev : bool) (line : list (option tile))
  : list (option tile) :=
  if rev then List.rev (fst (slideAndMerge (List.rev line)))
  else fst (slideAndMerge line).

Definition lineScore (rev : bool) (line : list (option tile)) : Z :=
  snd (slideAndMerge (if rev then List.rev line else line)).

Definition lineMoved (n : nat) (rev : bool) (line : list (option tile)) : bool :=
  existsb (fun j => negb (same_ref (nth j line None)
                                   (nth j (resolvedLine rev line) None)))
    (seq 0 n).

(** [n] rows of [n] cells. *)
Definition shape (n : nat) (g : grid_t) : Prop :=
  length g = n /\ forall r, (r < n)%nat -> length (nth r g []) = n.

(** The grid has [size] rows of [size] cells, as built by the constructor. *)
Definition WF (b : board) : Prop := shape (dim b) (grid b).

(** The line axis and orientation of each branch of [moveWithScore]. *)
Definition axis (direction : string) : option (bool * bool) :=
  if String.eqb direction "up" then Some (true, false)
  else if String.eqb direction "down" then Some (true, true)
  else if String.eqb direction "left" then Some (false, false)
  else if String.eqb direction "right" then Some (false, true)
  else None.

Definition cellValue (o : option tile) : Z :=
  match o with Some t => value t | None => 0 end.

Definition zsum (l : list Z) : Z := fold_right Z.add 0 l.

(** The sum of the values of all tiles on the board. *)
Definition boardSum (b : board) : Z :=
  zsum (map (fun r => zsum (map (fun c => cellValue (get (grid b) r c))
                                (seq 0 (dim b))))
            (seq 0 (dim b))).

(** Two cells that share a side. *)
Definition adjacent (r c r' c' : nat) : Prop :=
  (r' = r /\ (c' = S c \/ c = S c')) \/ (c' = c /\ (r' = S r \/ r = S r')).

(** Presence and value of a cell. *)
Definition occupant (o : option tile) : option Z := option_map value o.

(** Weights of a cell, summed over the board by [gridSum]. *)
Definition tileCount (o : option tile) : Z := if isTile o then 1 else 0.

Definition mergedValue (o : option tile) : Z :=
  match o with Some t => if merged t then value t else 0 | None => 0 end.

Definition mergedCount (o : option tile) : Z :=
  match o with Some t => if merged t then 1 else 0 | None => 0 end.

Definition gridSum (f : option tile -> Z) (n : nat) (g : grid_t) : Z :=
  zsum (map (fun r => zsum (map (fun c => f (get g r c)) (seq 0 n))) (seq 0 n)).

(** * Proofs *)

(** ** The line scan *)

Module LineScan.

Lemma filter_isTile_somes (l : list (option tile)) :
  filter isTile l = map Some (somes l).
Proof. induction l as [|[t|] l IH]; simpl; congruence. Qed.

Lemma somes_length (l : list (option tile)) : (length (somes l) <= length l)%nat.
Proof. induction l as [|[t|] l IH]; simpl; lia. Qed.

Lemma mergeTiles_cons2 (a b : tile) (rest : list tile) :
  mergeTiles (a :: b :: rest) =
  if canMergeWith a b then
    let '(r, s) := mergeTiles rest in
    (setMerged (mkTile (tid a) (value a * 2) (merged a)) true :: r,
     value a * 2 + s)
  else let '(r, s) := mergeTiles (b :: rest) in (a :: r, s).
Proof. reflexivity. Qed.

Lemma mergeTiles_length_le (l : list tile) :
  (length (fst (mergeTiles l)) <= length l)%nat.
Proof.
  remember (length l) as n eqn:Hn.
  assert (Hle : (length l <= n)%nat) by lia. clear Hn.
  revert l Hle. induction n as [|n IH]; intros l Hle.
  - destruct l; simpl in *; lia.
  - destruct l as [|a [|b rest]]; [simpl; lia | simpl; lia |].
    rewrite mergeTiles_cons2. simpl in Hle.
    destruct (canMergeWith a b).
    + pose proof (IH rest ltac:(lia)) as H.
      destruct (mergeTiles rest) as [r s]; simpl in *; lia.
    + pose proof (IH (b :: rest) ltac:(simpl; lia)) as H.
      destruct (mergeTiles (b :: rest)) as [r s]; simpl in *; lia.
Qed.

Lemma nth_app_len {A} (P l : list A) (j : nat) (d : A) :
  nth (length P + j) (P ++ l) d = nth j l d.
Proof. induction P; simpl; auto. Qed.

Lemma nth_len_app {A} (P l : list A) (x d : A) :
  nth (length P) (P ++ x :: l) d = x.
Proof. induction P; simpl; auto. Qed.

Lemma nth_S_len_app {A} (P l : list A) (x y d : A) :
  nth (S (length P)) (P ++ x :: y :: l) d = y.
Proof. induction P; simpl; auto. Qed.

Lemma repeat_snoc {A} (a : A) (k : nat) : repeat a k ++ [a] = repeat a (S k).
Proof. induction k as [|k IH]; simpl; [reflexivity | rewrite IH; reflexivity]. Qed.

Lemma upd_nth_app_len {A} (P l : list A) (x y : A) :
  upd_nth (length P) x (P ++ y :: l) = P ++ x :: l.
Proof. induction P; simpl; congruence. Qed.

Lemma removeAt_app_len {A} (P l : list A) (x y : A) :
  removeAt (S (length P)) (P ++ x :: y :: l) = P ++ x :: l.
Proof.
  unfold removeAt. induction P as [|p P IH]; simpl; auto.
  simpl in IH. rewrite IH. reflexivity.
Qed.

Lemma sm_loop_none_tail (fuel i : nat) (arr : list (option tile)) (s : Z) :
  (forall j, (S i <= j)%nat -> nth j arr None = None) ->
  sm_loop fuel i arr s = (arr, s).
Proof.
  revert i. induction fuel as [|f IH]; intros i Hn; simpl; auto.
  destruct (Nat.ltb i (length arr - 1)); auto.
  unfold sm_step. rewrite (Hn (S i) (le_n _)).
  destruct (nth i arr None); apply IH; intros j Hj; apply Hn; lia.
Qed.

Lemma nth_tail_none (P : list (option tile)) (l : list tile) (k j : nat) :
  (length P + length l <= j)%nat ->
  nth j (P ++ map Some l ++ repeat None k) None = None.
Proof.
  intros Hj. rewrite app_assoc.
  replace j with (length (P ++ map Some l) + (j - length (P ++ map Some l)))%nat
    by (rewrite length_app, length_map; lia).
  rewrite nth_app_len. apply nth_repeat.
Qed.

(** The index loop of [slideAndMerge] computes [mergeTiles] on the tiles
    from index [i] on, and pushes one [null] per merge. *)
Lemma sm_loop_spec (fuel : nat) (P : list (option tile)) (l : list tile)
  (k : nat) (s : Z) :
  (length l <= fuel)%nat ->
  sm_loop fuel (length P) (P ++ map Some l ++ repeat None k) s =
  (P ++ map Some (fst (mergeTiles l))
     ++ repeat None (k + (length l - length (fst (mergeTiles l)))),
   (s + snd (mergeTiles l))%Z).
Proof.
  revert P l k s. induction fuel as [|f IH]; intros P l k s Hf.
  - destruct l; simpl in Hf; [|lia]. simpl. rewrite Nat.add_0_r, Z.add_0_r.
    reflexivity.
  - destruct l as [|a [|b rest]].
    + rewrite sm_loop_none_tail.
      * simpl. rewrite Nat.add_0_r, Z.add_0_r. reflexivity.
      * intros j Hj. apply (nth_tail_none P [] k j). simpl. lia.
    + rewrite sm_loop_none_tail.
      * simpl. rewrite Nat.add_0_r, Z.add_0_r. reflexivity.
      * intros j Hj. apply (nth_tail_none P [a] k j). simpl. lia.
    + cbn [sm_loop].
      replace (Nat.ltb (length P)
                 (length (P ++ map Some (a :: b :: rest) ++ repeat None k) - 1))
        with true
        by (symmetry; apply Nat.ltb_lt;
            rewrite !length_app, length_map, repeat_length; simpl; lia).
      unfold sm_step. cbn [map app].
      rewrite nth_len_app, nth_S_len_app.
      rewrite mergeTiles_cons2.
      destruct (canMergeWith a b) eqn:Hab.
      * set (a' := setMerged (mkTile (tid a) (value a * 2) (merged a)) true).
        rewrite upd_nth_app_len, removeAt_app_len.
        replace ((P ++ Some a' :: map Some rest ++ repeat None k) ++ [None])
          with ((P ++ [Some a']) ++ map Some rest ++ repeat None (S k))
          by (rewrite <- !app_assoc; simpl; rewrite <- !app_assoc;
              rewrite repeat_snoc; reflexivity).
        replace (S (length P)) with (length (P ++ [Some a'])) 
          by (rewrite length_app; simpl; lia).
        rewrite IH by (simpl in Hf; lia).
        pose proof (mergeTiles_length_le rest) as Hm.
        destruct (mergeTiles rest) as [r sc].
        cbn [fst snd] in *. rewrite <- app_assoc.
        cbn [fst snd map app length].
        f_equal; [do 4 f_equal; lia | subst a'; simpl; lia].
      * replace (S (length P)) with (length (P ++ [Some a]))
          by (rewrite length_app; simpl; lia).
        replace (P ++ Some a :: Some b :: map Some rest ++ repeat None k)
          with ((P ++ [Some a]) ++ map Some (b :: rest) ++ repeat None k)
          by (rewrite <- app_assoc; reflexivity).
        rewrite IH by (simpl in *; lia).
        destruct (mergeTiles (b :: rest)) as [r sc]; simpl.
        rewrite <- app_assoc. reflexivity.
Qed.

Lemma mergeTiles_len_eq (l : list tile) :
  length (fst (mergeTiles l)) = length l -> fst (mergeTiles l) = l.
Proof.
  remember (length l) as n eqn:Hn.
  assert (Hle : (length l <= n)%nat) by lia. clear Hn.
  revert l Hle. induction n as [|n IH]; intros l Hle Heq.
  - destruct l; simpl in *; [reflexivity | lia].
  - destruct l as [|a [|b rest]]; [reflexivity | reflexivity |].
    rewrite mergeTiles_cons2 in *. simpl in Hle.
    destruct (canMergeWith a b).
    + pose proof (mergeTiles_length_le rest) as H.
      destruct (mergeTiles rest) as [r s]; simpl in *; lia.
    + pose proof (IH (b :: rest) ltac:(simpl; lia)) as H.
      destruct (mergeTiles (b :: rest)) as [r s]; simpl in *.
      rewrite H by lia. reflexivity.
Qed.

(** A merge replaces two tiles of equal value [v] by one of value [2 v]. *)
Lemma mergeTiles_sum (l : list tile) :
  zsum (map value (fst (mergeTiles l))) = zsum (map value l).
Proof.
  remember (length l) as n eqn:Hn.
  assert (Hle : (length l <= n)%nat) by lia. clear Hn.
  revert l Hle. induction n as [|n IH]; intros l Hle.
  - destruct l; simpl in *; [reflexivity | lia].
  - destruct l as [|a [|b rest]]; [reflexivity | reflexivity |].
    rewrite mergeTiles_cons2. simpl in Hle.
    destruct (canMergeWith a b) eqn:Hab.
    + unfold canMergeWith in Hab.
      apply andb_true_iff in Hab as [Hab _]. apply andb_true_iff in Hab as [Hab _].
      apply Z.eqb_eq in Hab.
      pose proof (IH rest ltac:(lia)) as H.
      destruct (mergeTiles rest) as [r s]; simpl in *. lia.
    + pose proof (IH (b :: rest) ltac:(simpl; lia)) as H.
      destruct (mergeTiles (b :: rest)) as [r s]; simpl in *. lia.
Qed.

(** Without a mergeable adjacent pair the scan changes nothing. *)
Lemma mergeTiles_no_pair (l : list tile) :
  (forall i a b, nth_error l i = Some a -> nth_error l (S i) = Some b ->
                 canMergeWith a b = false) ->
  mergeTiles l = (l, 0).
Proof.
  induction l as [|a l IH]; intros Hp; [reflexivity|].
  destruct l as [|b rest]; [reflexivity|].
  rewrite mergeTiles_cons2.
  rewrite (Hp 0%nat a b eq_refl eq_refl).
  rewrite IH; [reflexivity|].
  intros i x y Hx Hy. apply (Hp (S i)); assumption.
Qed.

Lemma slideAndMerge_spec (line : list (option tile)) :
  slideAndMerge line =
  (map Some (fst (mergeTiles (somes line)))
     ++ repeat None (length line - length (fst (mergeTiles (somes line)))),
   snd (mergeTiles (somes line))).
Proof.
  unfold slideAndMerge. rewrite filter_isTile_somes.
  pose proof (sm_loop_spec (length (map Some (somes line))) [] (somes line) 0 0
                ltac:(rewrite length_map; lia)) as H.
  cbn [length app repeat] in H. rewrite app_nil_r in H. rewrite H.
  pose proof (mergeTiles_length_le (somes line)) as H1.
  pose proof (somes_length line) as H2.
  destruct (mergeTiles (somes line)) as [m sc]; cbn [fst snd] in *.
  f_equal.
  rewrite <- app_assoc, <- repeat_app, length_app, length_map, repeat_length.
  do 2 f_equal. lia.
Qed.

Lemma slideAndMerge_length (line : list (option tile)) :
  length (fst (slideAndMerge line)) = length line.
Proof.
  rewrite slideAndMerge_spec. cbn [fst].
  rewrite length_app, length_map, repeat_length.
  pose proof (mergeTiles_length_le (somes line)).
  pose proof (somes_length line). lia.
Qed.

Lemma somes_presence (A B : list (option tile)) :
  length A = length B ->
  (forall j, isTile (nth j A None) = isTile (nth j B None)) ->
  length (somes A) = length (somes B).
Proof.
  revert B. induction A as [|x A IH]; intros [|y B] Hl Hp; simpl in *;
    try lia; auto.
  pose proof (Hp 0%nat) as H0. simpl in H0.
  assert (IH' : length (somes A) = length (somes B))
    by (apply IH; [lia | intros j; apply (Hp (S j))]).
  destruct x, y; simpl in *; congruence.
Qed.

Lemma compact_fixed (L : list (option tile)) :
  (forall j, isTile (nth j L None) =
             isTile (nth j (map Some (somes L)
                              ++ repeat None (length L - length (somes L))) None)) ->
  map Some (somes L) ++ repeat None (length L - length (somes L)) = L.
Proof.
  induction L as [|[t|] L IH]; intros Hp; [reflexivity| |].
  - simpl. f_equal. apply IH. intros j. apply (Hp (S j)).
  - simpl in *. destruct (somes L) as [|t ls] eqn:Hs.
    + cbn [map app] in *. rewrite ?Nat.sub_0_r in *.
      simpl. f_equal. apply IH.
      intros j. apply (Hp (S j)).
    + specialize (Hp 0%nat). simpl in Hp. discriminate.
Qed.

(** A resolved line with the same presence pattern as its input is the
    input itself. *)
Lemma slideAndMerge_fixed (L : list (option tile)) :
  (forall j, isTile (nth j L None) = isTile (nth j (fst (slideAndMerge L)) None)) ->
  fst (slideAndMerge L) = L.
Proof.
  intros Hp.
  assert (Hc : length (somes L) = length (somes (fst (slideAndMerge L))))
    by (apply somes_presence; [symmetry; apply slideAndMerge_length | exact Hp]).
  rewrite slideAndMerge_spec in *. cbn [fst] in *.
  assert (Hs : forall m k, somes (map Some m ++ repeat None k) = m).
  { intros m k. induction m as [|x m IHm]; simpl; [|congruence].
    induction k; simpl; auto. }
  rewrite Hs in Hc.
  rewrite (mergeTiles_len_eq _ (eq_sym Hc)) in *.
  apply compact_fixed. exact Hp.
Qed.

End LineScan.

(** ** Grid access *)

Module GridAccess.

Lemma upd_nth_length {A} (l : list A) (i : nat) (x : A) :
  length (upd_nth i x l) = length l.
Proof. revert i; induction l; intros [|i]; simpl; auto. Qed.

Lemma nth_upd_nth_eq {A} (l : list A) (i : nat) (x d : A) :
  (i < length l)%nat -> nth i (upd_nth i x l) d = x.
Proof. revert i; induction l; intros [|i] H; simpl in *; auto; try lia. apply IHl; lia. Qed.

Lemma nth_upd_nth_neq {A} (l : list A) (i j : nat) (x d : A) :
  i <> j -> nth i (upd_nth j x l) d = nth i l d.
Proof.
  revert i j; induction l; intros [|i] [|j] H; simpl; auto; try congruence.
Qed.

Lemma upd_nth_oob {A} (l : list A) (i : nat) (x : A) :
  (length l <= i)%nat -> upd_nth i x l = l.
Proof. revert i; induction l; intros [|i] H; simpl in *; auto; try lia. f_equal; apply IHl; lia. Qed.

Lemma get_set_eq (g : grid_t) (r c : nat) (v : option tile) :
  (r < length g)%nat -> (c < length (nth r g []))%nat ->
  get (set g r c v) r c = v.
Proof.
  intros Hr Hc. unfold get, set.
  rewrite nth_upd_nth_eq by exact Hr. apply nth_upd_nth_eq. exact Hc.
Qed.

Lemma get_set_neq (g : grid_t) (r c r' c' : nat) (v : option tile) :
  (r, c) <> (r', c') -> get (set g r c v) r' c' = get g r' c'.
Proof.
  intros Hne. unfold get, set.
  destruct (Nat.eq_dec r' r) as [->|Hr].
  - assert (c' <> c) by congruence.
    destruct (Nat.lt_ge_cases r (length g)) as [Hl|Hl].
    + rewrite nth_upd_nth_eq by exact Hl. apply nth_upd_nth_neq; auto.
    + rewrite upd_nth_oob by exact Hl. reflexivity.
  - rewrite nth_upd_nth_neq by exact Hr. reflexivity.
Qed.

Lemma shape_set (n : nat) (g : grid_t) (r c : nat) (v : option tile) :
  shape n g -> shape n (set g r c v).
Proof.
  intros [Hl Hr]. unfold set. split.
  - rewrite upd_nth_length. exact Hl.
  - intros r' Hr'. destruct (Nat.eq_dec r' r) as [->|Hne].
    + rewrite nth_upd_nth_eq by lia. rewrite upd_nth_length. auto.
    + rewrite nth_upd_nth_neq by exact Hne. auto.
Qed.

Lemma getAt_setAt_eq (vert : bool) (n : nat) (g : grid_t) (k j : nat)
  (v : option tile) :
  shape n g -> (k < n)%nat -> (j < n)%nat ->
  getAt vert (setAt vert g k j v) k j = v.
Proof.
  intros [Hl Hr] Hk Hj. destruct vert; simpl; apply get_set_eq;
    try rewrite Hr; lia.
Qed.

Lemma getAt_setAt_neq (vert : bool) (g : grid_t) (k j k' j' : nat)
  (v : option tile) :
  (k, j) <> (k', j') -> getAt vert (setAt vert g k j v) k' j' = getAt vert g k' j'.
Proof.
  intros Hne. destruct vert; simpl; apply get_set_neq; congruence.
Qed.

Lemma shape_setAt (vert : bool) (n : nat) (g : grid_t) (k j : nat)
  (v : option tile) :
  shape n g -> shape n (setAt vert g k j v).
Proof. destruct vert; apply shape_set. Qed.

Lemma get_clearMerged (g : grid_t) (r c : nat) :
  get (clearMerged g) r c = option_map resetMerged (get g r c).
Proof.
  unfold get, clearMerged.
  assert (Hrow : forall (row : list (option tile)) c,
             nth c (map (option_map resetMerged) row) None
             = option_map resetMerged (nth c row None))
    by (induction row as [|x row IH]; intros [|c']; simpl; auto).
  revert r. induction g as [|row g IH]; intros [|r]; simpl; auto.
  - destruct c; reflexivity.
  - destruct c; reflexivity.
Qed.

Lemma shape_clearMerged (n : nat) (g : grid_t) :
  shape n g -> shape n (clearMerged g).
Proof.
  intros [Hl Hr]. unfold clearMerged. split.
  - rewrite length_map. exact Hl.
  - intros r H. change (@nil (option tile)) with (map (option_map resetMerged) []).
    rewrite map_nth, length_map. auto.
Qed.

Lemma nth_readLine (vert : bool) (n : nat) (g : grid_t) (k j : nat) :
  (j < n)%nat -> nth j (readLine vert n g k) None = getAt vert g k j.
Proof.
  intros Hj. unfold readLine.
  rewrite nth_indep with (d' := getAt vert g k 0) by (rewrite length_map, length_seq; exact Hj).
  rewrite map_nth, seq_nth by exact Hj. reflexivity.
Qed.

Lemma readLine_length (vert : bool) (n : nat) (g : grid_t) (k : nat) :
  length (readLine vert n g k) = n.
Proof. unfold readLine. rewrite length_map, length_seq. reflexivity. Qed.

Lemma existsb_ext_in {A} (f h : A -> bool) (l : list A) :
  (forall x, In x l -> f x = h x) -> existsb f l = existsb h l.
Proof.
  induction l as [|x l IH]; intros H; simpl; auto.
  rewrite H by (left; reflexivity). rewrite IH; auto.
  intros y Hy; apply H; right; exact Hy.
Qed.

End GridAccess.

(** ** The loops of a move *)

Module Resolution.
Import GridAccess.

Lemma writeLine_gen (vert : bool) (n k : nat) (nl : list (option tile))
  (js : list nat) (g : grid_t) (m : bool) :
  shape n g -> (k < n)%nat -> (forall j, In j js -> (j < n)%nat) -> NoDup js ->
  let st := fold_left (writeCell vert k nl) js (g, m) in
  shape n (fst st) /\
  (forall j, In j js -> getAt vert (fst st) k j = nth j nl None) /\
  (forall k' j, ~ (k' = k /\ In j js) -> getAt vert (fst st) k' j = getAt vert g k' j) /\
  snd st = m || existsb (fun j => negb (same_ref (getAt vert g k j) (nth j nl None))) js.
Proof.
  revert g m. induction js as [|j js IH]; intros g m Hs Hk Hjs Hnd; simpl.
  - split; [exact Hs|]. split; [intros j []|].
    split; [intros; reflexivity|]. rewrite orb_false_r. reflexivity.
  - apply NoDup_cons_iff in Hnd as [Hnin Hnd].
    assert (Hj : (j < n)%nat) by (apply Hjs; left; reflexivity).
    set (g1 := setAt vert g k j (nth j nl None)).
    set (m1 := m || negb (same_ref (getAt vert g k j) (nth j nl None))).
    destruct (IH g1 m1) as (H1 & H2 & H3 & H4).
    + apply shape_setAt. exact Hs.
    + exact Hk.
    + intros j' Hj'. apply Hjs. right. exact Hj'.
    + exact Hnd.
    + refine (conj H1 (conj _ (conj _ _))).
      * intros j' [<-|Hin].
        -- rewrite H3 by (intros [_ Hc]; contradiction).
           subst g1. apply (getAt_setAt_eq vert n); assumption.
        -- apply H2. exact Hin.
      * intros k' j' Hne. rewrite H3 by (intros [Hk' Hin]; apply Hne; split; [exact Hk'|right; exact Hin]).
        subst g1. apply getAt_setAt_neq.
        intros Heq. inversion Heq; subst. apply Hne. split; [reflexivity|left; reflexivity].
      * rewrite H4. subst m1. rewrite <- orb_assoc. f_equal. f_equal.
        apply existsb_ext_in. intros j' Hin. subst g1.
        rewrite getAt_setAt_neq; [reflexivity|].
        intros Heq. inversion Heq; subst. contradiction.
Qed.

Lemma lineWithScore_eq (vert rev : bool) (n : nat) (g : grid_t) (m : bool)
  (s : Z) (k : nat) :
  lineWithScore vert rev n (g, m, s) k =
  (fst (writeLine vert n k (resolvedLine rev (readLine vert n g k)) (g, m)),
   snd (writeLine vert n k (resolvedLine rev (readLine vert n g k)) (g, m)),
   s + lineScore rev (readLine vert n g k)).
Proof.
  unfold lineWithScore, resolvedLine, lineScore.
  destruct (slideAndMerge (if rev then List.rev (readLine vert n g k)
                           else readLine vert n g k)) as [nl ms] eqn:E.
  destruct rev; rewrite E; cbn [fst snd];
    destruct (writeLine _ _ _ _ _); reflexivity.
Qed.

Lemma lines_gen (vert rev : bool) (n : nat) (ks : list nat) (g : grid_t)
  (m : bool) (s : Z) :
  shape n g -> (forall k, In k ks -> (k < n)%nat) -> NoDup ks ->
  let st := fold_left (lineWithScore vert rev n) ks (g, m, s) in
  shape n (fst (fst st)) /\
  (forall k j, In k ks -> (j < n)%nat ->
     getAt vert (fst (fst st)) k j
     = nth j (resolvedLine rev (readLine vert n g k)) None) /\
  (forall k j, ~ In k ks -> getAt vert (fst (fst st)) k j = getAt vert g k j) /\
  snd (fst st) = m || existsb (fun k => lineMoved n rev (readLine vert n g k)) ks /\
  snd st = s + zsum (map (fun k => lineScore rev (readLine vert n g k)) ks).
Proof.
  revert g m s. induction ks as [|k ks IH]; intros g m s Hs Hks Hnd;
    cbn [fold_left].
  - simpl. split; [exact Hs|]. split; [intros k j []|].
    split; [intros; reflexivity|]. split; [rewrite orb_false_r; reflexivity|].
    simpl. lia.
  - apply NoDup_cons_iff in Hnd as [Hnin Hnd].
    assert (Hk : (k < n)%nat) by (apply Hks; left; reflexivity).
    rewrite lineWithScore_eq.
    set (L := readLine vert n g k).
    destruct (writeLine_gen vert n k (resolvedLine rev L) (seq 0 n) g m Hs Hk
                (fun j Hj => proj2 (proj1 (in_seq n 0 j) Hj)) (seq_NoDup n 0))
      as (W1 & W2 & W3 & W4).
    fold (writeLine vert n k (resolvedLine rev L) (g, m)) in W1, W2, W3, W4.
    set (g1 := fst (writeLine vert n k (resolvedLine rev L) (g, m))) in *.
    assert (Hread : forall k', k' <> k -> readLine vert n g1 k' = readLine vert n g k').
    { intros k' Hne. unfold readLine. apply map_ext_in. intros j _.
      apply W3. intros [Hc _]. contradiction. }
    destruct (IH g1 (snd (writeLine vert n k (resolvedLine rev L) (g, m)))
                (s + lineScore rev L) W1
                (fun k' Hk' => Hks k' (or_intror Hk')) Hnd)
      as (H1 & H2 & H3 & H4 & H5).
    refine (conj H1 (conj _ (conj _ (conj _ _)))).
    + intros k' j [<-|Hin] Hj.
      * rewrite H3 by exact Hnin. apply W2. apply in_seq. lia.
      * rewrite H2 by assumption. rewrite Hread; [reflexivity|].
        intros ->. contradiction.
    + intros k' j Hnot. rewrite H3 by (intros Hin; apply Hnot; right; exact Hin).
      apply W3. intros [-> _]. apply Hnot. left. reflexivity.
    + rewrite H4, W4. unfold lineMoved. cbn [existsb].
      rewrite <- orb_assoc. f_equal. f_equal.
      * apply existsb_ext_in. intros j Hj.
        apply in_seq in Hj. subst L. rewrite nth_readLine by lia. reflexivity.
      * apply existsb_ext_in. intros k' Hk'. rewrite Hread; [reflexivity|].
        intros ->. contradiction.
    + rewrite H5. cbn [map zsum fold_right]. rewrite <- Z.add_assoc.
      f_equal. f_equal. change (fold_right Z.add 0) with zsum.
      f_equal. apply map_ext_in. intros k' Hk'. rewrite Hread; [reflexivity|].
      intros ->. contradiction.
Qed.

End Resolution.

(** ** A move, line by line *)

Module MoveLines.
Import LineScan GridAccess Resolution.

Lemma moveWithScore_axis (b : board) (d : string) :
  moveWithScore b d =
  match axis d with
  | Some (vert, rev) =>
      let st := linesWithScore vert rev (dim b) (clearMerged (grid b)) in
      (mkBoard (size b) (fst (fst st)), (snd (fst st), snd st))
  | None => (mkBoard (size b) (clearMerged (grid b)), (false, 0))
  end.
Proof.
  unfold moveWithScore, axis.
  destruct (String.eqb d "up"); [|destruct (String.eqb d "down");
    [|destruct (String.eqb d "left"); [|destruct (String.eqb d "right")]]];
  try reflexivity;
  match goal with |- context [linesWithScore ?v ?r ?n ?g] =>
    destruct (linesWithScore v r n g) as [[g' m] s] end; reflexivity.
Qed.

Lemma linesWithScore_spec (vert rev : bool) (n : nat) (g : grid_t) :
  shape n g ->
  let st := linesWithScore vert rev n g in
  shape n (fst (fst st)) /\
  (forall k j, (k < n)%nat -> (j < n)%nat ->
     getAt vert (fst (fst st)) k j
     = nth j (resolvedLine rev (readLine vert n g k)) None) /\
  snd (fst st) = existsb (fun k => lineMoved n rev (readLine vert n g k)) (seq 0 n) /\
  snd st = zsum (map (fun k => lineScore rev (readLine vert n g k)) (seq 0 n)).
Proof.
  intros Hs.
  destruct (lines_gen vert rev n (seq 0 n) g false 0 Hs
              (fun k Hk => proj2 (proj1 (in_seq n 0 k) Hk)) (seq_NoDup n 0))
    as (H1 & H2 & _ & H4 & H5).
  unfold linesWithScore. refine (conj H1 (conj _ (conj H4 H5))).
  intros k j Hk Hj. apply H2; [apply in_seq; lia | exact Hj].
Qed.

Lemma get_getAt (vert : bool) (g : grid_t) (r c : nat) :
  get g r c = getAt vert g (if vert then c else r) (if vert then r else c).
Proof. destruct vert; reflexivity. Qed.

Lemma resolvedLine_length (rev : bool) (L : list (option tile)) :
  length (resolvedLine rev L) = length L.
Proof.
  unfold resolvedLine. destruct rev.
  - rewrite length_rev, slideAndMerge_length, length_rev. reflexivity.
  - apply slideAndMerge_length.
Qed.

Lemma same_ref_isTile (a b : option tile) :
  same_ref a b = true -> isTile a = isTile b.
Proof. destruct a, b; simpl; congruence. Qed.

Lemma same_ref_refl (a : option tile) : same_ref a a = true.
Proof. destruct a; simpl; auto using Nat.eqb_refl. Qed.

Lemma nth_beyond (L : list (option tile)) (j : nat) :
  (length L <= j)%nat -> nth j L None = None.
Proof. apply nth_overflow. Qed.

(** A line that [moved] left untouched is written back as it was. *)
Lemma resolvedLine_fixed (n : nat) (rev : bool) (L : list (option tile)) :
  length L = n -> lineMoved n rev L = false -> resolvedLine rev L = L.
Proof.
  intros Hl Hm. unfold lineMoved in Hm.
  assert (Hj : forall j, (j < n)%nat ->
             isTile (nth j L None) = isTile (nth j (resolvedLine rev L) None)).
  { intros j Hj. apply same_ref_isTile.
    destruct (same_ref (nth j L None) (nth j (resolvedLine rev L) None)) eqn:E;
      [reflexivity|].
    exfalso. assert (Hx : existsb (fun j => negb (same_ref (nth j L None)
                             (nth j (resolvedLine rev L) None))) (seq 0 n) = true).
    { apply existsb_exists. exists j. split; [apply in_seq; lia | rewrite E; reflexivity]. }
    congruence. }
  pose proof (resolvedLine_length rev L) as Hrl.
  unfold resolvedLine in *. destruct rev.
  - set (R := List.rev L) in *.
    assert (HR : fst (slideAndMerge R) = R).
    { apply slideAndMerge_fixed. intros j.
      destruct (Nat.lt_ge_cases j n) as [Hlt|Hge].
      - subst R. rewrite rev_nth by lia.
        rewrite <- (rev_involutive (fst (slideAndMerge (List.rev L)))).
        rewrite rev_nth by (rewrite length_rev, slideAndMerge_length, length_rev; lia).
        rewrite length_rev, slideAndMerge_length, length_rev.
        apply Hj. lia.
      - rewrite !nth_beyond; auto.
        + rewrite slideAndMerge_length. subst R. rewrite length_rev. lia.
        + subst R. rewrite length_rev. lia. }
    rewrite HR. subst R. apply rev_involutive.
  - apply slideAndMerge_fixed. intros j.
    destruct (Nat.lt_ge_cases j n) as [Hlt|Hge]; [apply Hj; exact Hlt|].
    rewrite !nth_beyond; auto; rewrite ?slideAndMerge_length; lia.
Qed.

Lemma somes_compact (m : list tile) (k : nat) :
  somes (map Some m ++ repeat None k) = m.
Proof.
  induction m as [|x m IH]; simpl; [|congruence].
  induction k; simpl; auto.
Qed.

Lemma nth_compact (m : list tile) (X : list (option tile)) (i : nat) (a : tile) :
  nth_error m i = Some a -> nth i (map Some m ++ X) None = Some a.
Proof.
  revert i. induction m as [|x m IH]; intros [|i] H; simpl in *; try discriminate.
  - congruence.
  - apply IH. exact H.
Qed.

(** A compact line whose adjacent tiles all differ in value is a fixed
    point of [slideAndMerge]. *)
Lemma slideAndMerge_compact_fixed (m : list tile) (k : nat) :
  (forall i a a', nth_error m i = Some a -> nth_error m (S i) = Some a' ->
                  value a <> value a') ->
  fst (slideAndMerge (map Some m ++ repeat None k)) = map Some m ++ repeat None k.
Proof.
  intros Hd. rewrite slideAndMerge_spec. cbn [fst]. rewrite somes_compact.
  rewrite mergeTiles_no_pair.
  - cbn [fst]. rewrite length_app, length_map, repeat_length.
    f_equal. f_equal. lia.
  - intros i a a' Ha Ha'. unfold canMergeWith.
    destruct (value a =? value a') eqn:E; [|reflexivity].
    apply Z.eqb_eq in E. exfalso. exact (Hd i a a' Ha Ha' E).
Qed.

Lemma resolvedLine_compact (rev : bool) (L : list (option tile)) :
  exists m k, (if rev then List.rev (resolvedLine rev L) else resolvedLine rev L)
              = map Some m ++ repeat None k.
Proof.
  destruct rev; unfold resolvedLine.
  - rewrite rev_involutive, slideAndMerge_spec. cbn [fst].
    eexists; eexists; reflexivity.
  - rewrite slideAndMerge_spec. cbn [fst]. eexists; eexists; reflexivity.
Qed.

Lemma map_reset_compact (m : list tile) (k : nat) :
  map (option_map resetMerged) (map Some m ++ repeat None k)
  = map Some (map resetMerged m) ++ repeat None k.
Proof.
  rewrite map_app, !map_map. f_equal.
  induction k; simpl; congruence.
Qed.

Lemma nth_error_map_some (m : list tile) (i : nat) (a : tile) :
  nth_error m i = Some a -> (i < length m)%nat.
Proof. intros H. apply nth_error_Some. congruence. Qed.

(** After a first resolution with flags reset, the line resolves to
    itself when no two adjacent tiles have equal values. *)
Lemma second_pass_fixed (n : nat) (rev : bool) (L : list (option tile)) :
  length L = n ->
  let L1 := map (option_map resetMerged) (resolvedLine rev L) in
  (forall j a a', (S j < n)%nat -> nth j L1 None = Some a ->
                  nth (S j) L1 None = Some a' -> value a <> value a') ->
  resolvedLine rev L1 = L1.
Proof.
  intros Hl L1 Hd.
  destruct (resolvedLine_compact rev L) as (m & k & Hc).
  assert (HlenR : length (resolvedLine rev L) = n)
    by (rewrite resolvedLine_length; exact Hl).
  assert (HL1 : length L1 = n) by (subst L1; rewrite length_map; exact HlenR).
  assert (Hmk : (length m + k = n)%nat).
  { assert (E : length (if rev then List.rev (resolvedLine rev L)
                        else resolvedLine rev L) = n)
      by (destruct rev; rewrite ?length_rev; exact HlenR).
    rewrite Hc, length_app, length_map, repeat_length in E. exact E. }
  destruct rev.
  - assert (HrevL1 : List.rev L1 = map Some (map resetMerged m) ++ repeat None k)
      by (subst L1; rewrite <- map_rev, Hc; apply map_reset_compact).
    unfold resolvedLine. rewrite HrevL1, slideAndMerge_compact_fixed.
    + rewrite <- HrevL1. apply rev_involutive.
    + intros i a a' Ha Ha' Heq.
      assert (Hi : (S i < length m)%nat)
        by (apply nth_error_map_some in Ha'; rewrite length_map in Ha'; exact Ha').
      pose proof (nth_compact _ (repeat None k) i a Ha) as Na.
      pose proof (nth_compact _ (repeat None k) (S i) a' Ha') as Na'.
      rewrite <- HrevL1 in Na, Na'.
      rewrite rev_nth in Na, Na' by lia. rewrite HL1 in Na, Na'.
      apply (Hd (n - S (S i))%nat a' a).
      * lia.
      * exact Na'.
      * replace (S (n - S (S i))) with (n - S i)%nat by lia. exact Na.
      * symmetry. exact Heq.
  - assert (HL1c : L1 = map Some (map resetMerged m) ++ repeat None k)
      by (subst L1; rewrite Hc; apply map_reset_compact).
    unfold resolvedLine. rewrite HL1c, slideAndMerge_compact_fixed; [reflexivity|].
    intros i a a' Ha Ha'.
    assert (Hi : (S i < length m)%nat)
      by (apply nth_error_map_some in Ha'; rewrite length_map in Ha'; exact Ha').
    apply (Hd i); [lia | |].
    + rewrite HL1c. apply nth_compact. exact Ha.
    + rewrite HL1c. apply nth_compact. exact Ha'.
Qed.

End MoveLines.

(** ** Shared facts for the claims *)

Module ClaimFacts.
Import LineScan GridAccess Resolution MoveLines.

Lemma reset_cell (o : option tile) :
  same_ref (option_map resetMerged o) o = true /\
  occupant (option_map resetMerged o) = occupant o.
Proof. destruct o; simpl; auto using Nat.eqb_refl. Qed.

Lemma existsb_false_in {A} (f : A -> bool) (l : list A) (x : A) :
  existsb f l = false -> In x l -> f x = false.
Proof.
  intros H Hx. destruct (f x) eqn:E; [|reflexivity].
  assert (existsb f l = true) by (apply existsb_exists; eauto). congruence.
Qed.

Lemma lines_proj (vert rev : bool) (n : nat) (ks : list nat) (g : grid_t)
  (m : bool) (s : Z) :
  fold_left (lineStep vert rev n) ks (g, m) =
  (fst (fst (fold_left (lineWithScore vert rev n) ks (g, m, s))),
   snd (fst (fold_left (lineWithScore vert rev n) ks (g, m, s)))).
Proof.
  revert g m s. induction ks as [|k ks IH]; intros g m s; [reflexivity|].
  cbn [fold_left]. rewrite lineWithScore_eq.
  assert (E : lineStep vert rev n (g, m) k =
              writeLine vert n k (resolvedLine rev (readLine vert n g k)) (g, m)).
  { unfold lineStep, resolvedLine.
    destruct rev; destruct (slideAndMerge _); reflexivity. }
  rewrite E. rewrite <- IH. f_equal. apply surjective_pairing.
Qed.

Lemma zsum_app (l1 l2 : list Z) : zsum (l1 ++ l2) = zsum l1 + zsum l2.
Proof. unfold zsum. induction l1; simpl; lia. Qed.

Lemma zsum_rev (l : list Z) : zsum (List.rev l) = zsum l.
Proof.
  induction l; simpl; [reflexivity|]. rewrite zsum_app. simpl.
  unfold zsum in *. rewrite IHl. lia.
Qed.

Lemma zsum_map_add {A} (f h : A -> Z) (l : list A) :
  zsum (map (fun x => f x + h x) l) = zsum (map f l) + zsum (map h l).
Proof. unfold zsum. induction l; simpl; lia. Qed.

Lemma zsum_map_zero {A} (l : list A) : zsum (map (fun _ => 0) l) = 0.
Proof. unfold zsum. induction l; simpl; lia. Qed.

Lemma zsum_swap {A B} (f : A -> B -> Z) (xs : list A) (ys : list B) :
  zsum (map (fun x => zsum (map (fun y => f x y) ys)) xs) =
  zsum (map (fun y => zsum (map (fun x => f x y) xs)) ys).
Proof.
  induction xs as [|x xs IH]; simpl.
  - symmetry. apply zsum_map_zero.
  - change (fold_right Z.add 0 (map (fun x0 => zsum (map (fun y => f x0 y) ys)) xs))
      with (zsum (map (fun x0 => zsum (map (fun y => f x0 y) ys)) xs)).
    rewrite IH. rewrite <- zsum_map_add. reflexivity.
Qed.

Lemma cellValues_somes (L : list (option tile)) :
  zsum (map cellValue L) = zsum (map value (somes L)).
Proof. induction L as [|[t|] L IH]; simpl; unfold zsum in *; rewrite ?IH; lia. Qed.

Lemma zsum_cellValue_compact (m : list tile) (k : nat) :
  zsum (map cellValue (map Some m ++ repeat None k)) = zsum (map value m).
Proof. rewrite cellValues_somes, somes_compact. reflexivity. Qed.

(** Slide-and-merge keeps the sum of the tile values of a line. *)
Lemma resolvedLine_sum (rev : bool) (L : list (option tile)) :
  zsum (map cellValue (resolvedLine rev L)) = zsum (map cellValue L).
Proof.
  unfold resolvedLine. destruct rev.
  - rewrite map_rev, zsum_rev, slideAndMerge_spec. cbn [fst].
    rewrite zsum_cellValue_compact, mergeTiles_sum, <- cellValues_somes.
    rewrite map_rev, zsum_rev. reflexivity.
  - rewrite slideAndMerge_spec. cbn [fst].
    rewrite zsum_cellValue_compact, mergeTiles_sum, <- cellValues_somes.
    reflexivity.
Qed.

Lemma boardSum_lines (vert : bool) (b : board) :
  boardSum b =
  zsum (map (fun k => zsum (map cellValue (readLine vert (dim b) (grid b) k)))
            (seq 0 (dim b))).
Proof.
  unfold boardSum, readLine. destruct vert.
  - rewrite zsum_swap. apply f_equal, map_ext. intros k.
    rewrite map_map. reflexivity.
  - apply f_equal, map_ext. intros k. rewrite map_map. reflexivity.
Qed.

Lemma boardSum_clearMerged (b : board) :
  boardSum (mkBoard (size b) (clearMerged (grid b))) = boardSum b.
Proof.
  unfold boardSum, dim. cbn [grid size].
  apply f_equal, map_ext. intros r. apply f_equal, map_ext. intros c.
  rewrite get_clearMerged. destruct (get (grid b) r c); reflexivity.
Qed.

Lemma readLine_after (vert rev : bool) (n : nat) (g : grid_t) (k : nat) :
  shape n g -> (k < n)%nat ->
  readLine vert n (fst (fst (linesWithScore vert rev n g))) k
  = resolvedLine rev (readLine vert n g k).
Proof.
  intros Hs Hk.
  destruct (linesWithScore_spec vert rev n g Hs) as (_ & S2 & _ & _).
  apply nth_ext with (d := None) (d' := None).
  - rewrite resolvedLine_length, !readLine_length. reflexivity.
  - intros j Hj. rewrite readLine_length in Hj.
    rewrite nth_readLine by exact Hj. apply S2; assumption.
Qed.

Lemma lineMoved_fixed (n : nat) (rev : bool) (L : list (option tile)) :
  resolvedLine rev L = L -> lineMoved n rev L = false.
Proof.
  intros H. unfold lineMoved. rewrite H.
  induction (seq 0 n) as [|j js IH]; simpl; [reflexivity|].
  rewrite same_ref_refl. exact IH.
Qed.

Lemma existsb_all_false {A} (f : A -> bool) (l : list A) :
  (forall x, In x l -> f x = false) -> existsb f l = false.
Proof.
  intros H. destruct (existsb f l) eqn:E; [|reflexivity].
  apply existsb_exists in E as (x & Hx & Hf). rewrite H in Hf by exact Hx.
  discriminate.
Qed.

Lemma nth_map_reset (l : list (option tile)) (j : nat) :
  nth j (map (option_map resetMerged) l) None = option_map resetMerged (nth j l None).
Proof. revert j. induction l as [|x l IH]; intros [|j]; simpl; auto. Qed.

Lemma getAt_clearMerged (vert : bool) (g : grid_t) (k j : nat) :
  getAt vert (clearMerged g) k j = option_map resetMerged (getAt vert g k j).
Proof. destruct vert; apply get_clearMerged. Qed.

Lemma sameNeighbour_true (b : board) (t : tile) (r c : nat) (dr dc : Z) :
  sameNeighbour b t r c (dr, dc) = true ->
  exists r' c' t', (r' < dim b)%nat /\ (c' < dim b)%nat /\
    Z.of_nat r + dr = Z.of_nat r' /\ Z.of_nat c + dc = Z.of_nat c' /\
    get (grid b) r' c' = Some t' /\ value t = value t'.
Proof.
  unfold sameNeighbour.
  destruct ((0 <=? Z.of_nat r + dr) && (Z.of_nat r + dr <? size b) &&
            (0 <=? Z.of_nat c + dc) && (Z.of_nat c + dc <? size b)) eqn:C;
    [|discriminate].
  rewrite !andb_true_iff, !Z.leb_le, !Z.ltb_lt in C.
  destruct (get (grid b) (Z.to_nat (Z.of_nat r + dr)) (Z.to_nat (Z.of_nat c + dc)))
    as [t'|] eqn:G; [|discriminate].
  intros Hv. apply Z.eqb_eq in Hv.
  exists (Z.to_nat (Z.of_nat r + dr)), (Z.to_nat (Z.of_nat c + dc)), t'.
  unfold dim. repeat split; try lia; assumption.
Qed.

Lemma sameNeighbour_at (b : board) (t t' : tile) (r c r' c' : nat) (dr dc : Z) :
  (r' < dim b)%nat -> (c' < dim b)%nat ->
  get (grid b) r' c' = Some t' -> value t = value t' ->
  Z.of_nat r + dr = Z.of_nat r' -> Z.of_nat c + dc = Z.of_nat c' ->
  sameNeighbour b t r c (dr, dc) = true.
Proof.
  intros Hr' Hc' Et' Hv E1 E2. unfold sameNeighbour, dim in *.
  rewrite E1, E2, !Nat2Z.id, Et'.
  replace ((0 <=? Z.of_nat r') && (Z.of_nat r' <? size b) &&
           (0 <=? Z.of_nat c') && (Z.of_nat c' <? size b)) with true
    by (symmetry; rewrite !andb_true_iff, !Z.leb_le, !Z.ltb_lt; lia).
  apply Z.eqb_eq. exact Hv.
Qed.

End ClaimFacts.

(** ** Empty cells, spawning and reset *)

Module EmptyCells.

Import GridAccess.

Lemma In_getEmptyCells (b : board) (r c : nat) :
  In (r, c) (getEmptyCells b) <->
  (r < dim b)%nat /\ (c < dim b)%nat /\ get (grid b) r c = None.
Proof.
  unfold getEmptyCells. rewrite in_flat_map. split.
  - intros (r0 & Hr0 & H). apply in_flat_map in H as (c0 & Hc0 & H).
    apply in_seq in Hr0. apply in_seq in Hc0.
    destruct (get (grid b) r0 c0) as [t|] eqn:G; simpl in H; [destruct H|].
    destruct H as [H|[]]. injection H as E1 E2. subst.
    split; [lia|]. split; [lia|]. exact G.
  - intros (Hr & Hc & G). exists r. split; [apply in_seq; lia|].
    apply in_flat_map. exists c. split; [apply in_seq; lia|].
    rewrite G. simpl. left. reflexivity.
Qed.

Lemma NoDup_flat_map_disj {A B : Type} (f : A -> list B) (l : list A) :
  NoDup l -> (forall x, In x l -> NoDup (f x)) ->
  (forall x y z, In x l -> In y l -> In z (f x) -> In z (f y) -> x = y) ->
  NoDup (flat_map f l).
Proof.
  induction l as [|a l IH]; intros Hl Hf Hd; simpl; [constructor|].
  inversion Hl as [|? ? Ha Hl']; subst.
  apply NoDup_app.
  - apply Hf. left. reflexivity.
  - apply IH; [exact Hl'| |].
    + intros x Hx. apply Hf. right. exact Hx.
    + intros x y z Hx Hy. apply Hd; right; assumption.
  - intros z Hz Hz'. apply in_flat_map in Hz' as (y & Hy & Hzy).
    assert (a = y) as <- by (apply (Hd a y z); [left; reflexivity|right; exact Hy|exact Hz|exact Hzy]).
    exact (Ha Hy).
Qed.

Lemma NoDup_getEmptyCells (b : board) : NoDup (getEmptyCells b).
Proof.
  unfold getEmptyCells. apply NoDup_flat_map_disj.
  - apply seq_NoDup.
  - intros r _. apply NoDup_flat_map_disj.
    + apply seq_NoDup.
    + intros c _. destruct (isTile (get (grid b) r c));
        [constructor|constructor; [intros []|constructor]].
    + intros c c' z _ _ Hz Hz'.
      destruct (isTile (get (grid b) r c)); [destruct Hz|].
      destruct (isTile (get (grid b) r c')); [destruct Hz'|].
      destruct Hz as [<-|[]]. destruct Hz' as [E|[]]. injection E as E. lia.
  - intros r r' z _ _ Hz Hz'.
    apply in_flat_map in Hz as (c & _ & Hz). apply in_flat_map in Hz' as (c' & _ & Hz').
    destruct (isTile (get (grid b) r c)); [destruct Hz|].
    destruct (isTile (get (grid b) r' c')); [destruct Hz'|].
    destruct Hz as [<-|[]]. destruct Hz' as [E|[]]. injection E as E. lia.
Qed.

Lemma getEmptyCells_full (b : board) :
  (forall r c, (r < dim b)%nat -> (c < dim b)%nat -> get (grid b) r c <> None) ->
  getEmptyCells b = [].
Proof.
  intros Hfull. destruct (getEmptyCells b) as [|[r c] l] eqn:E; [reflexivity|].
  exfalso. assert (Hin : In (r, c) (getEmptyCells b)) by (rewrite E; left; reflexivity).
  apply In_getEmptyCells in Hin as (Hr & Hc & G). exact (Hfull r c Hr Hc G).
Qed.

Lemma nth_split_at {A : Type} (l : list A) (i : nat) (d : A) :
  (i < length l)%nat -> l = firstn i l ++ nth i l d :: skipn (S i) l.
Proof.
  revert i. induction l as [|a l IH]; intros [|i] Hi; simpl in *; try lia.
  - reflexivity.
  - f_equal. apply IH. lia.
Qed.

Lemma removeAt_length {A : Type} (l : list A) (i : nat) :
  (i < length l)%nat -> length (removeAt i l) = (length l - 1)%nat.
Proof.
  intros Hi. unfold removeAt. rewrite length_app, length_firstn, length_skipn. lia.
Qed.

(** The second draw of [reset] picks an element of [empty] other than the
    first pick. *)
Lemma removeAt_nth {A : Type} (l : list A) (i j : nat) (d : A) :
  NoDup l -> (i < length l)%nat -> (j < length l - 1)%nat ->
  In (nth j (removeAt i l) d) l /\ nth j (removeAt i l) d <> nth i l d.
Proof.
  intros Hnd Hi Hj.
  assert (Hin : In (nth j (removeAt i l) d) (removeAt i l))
    by (apply nth_In; rewrite removeAt_length; lia).
  split.
  - assert (Hsub : forall k (x : A), In x (firstn k l) \/ In x (skipn k l) -> In x l)
      by (intros k x Hx; rewrite <- (firstn_skipn k l); apply in_or_app; exact Hx).
    unfold removeAt in Hin. apply in_app_or in Hin as [H|H].
    + apply (Hsub i). left. exact H.
    + apply (Hsub (S i)). right. exact H.
  - intros E. rewrite (nth_split_at l i d Hi) in Hnd.
    apply NoDup_remove_2 in Hnd. apply Hnd. rewrite <- E. exact Hin.
Qed.

Lemma get_empty_grid (n r c : nat) :
  get (repeat (repeat None n) n) r c = None.
Proof.
  unfold get. destruct (Nat.lt_ge_cases r n) as [Hr|Hr].
  - rewrite nth_repeat_lt by exact Hr. apply nth_repeat.
  - rewrite (nth_overflow (repeat (repeat None n) n)) by (rewrite repeat_length; lia).
    destruct c; reflexivity.
Qed.

Lemma shape_empty_grid (n : nat) : shape n (repeat (repeat None n) n).
Proof.
  split; [apply repeat_length|].
  intros r Hr. rewrite nth_repeat_lt by exact Hr. apply repeat_length.
Qed.

Lemma createEmptyBoard_pos (s : Z) :
  0 < s < 2 ^ 32 ->
  createEmptyBoard s = Ok (repeat (repeat None (Z.to_nat s)) (Z.to_nat s)).
Proof.
  intros Hs. unfold createEmptyBoard, js_Array_fill_null.
  replace (s <=? 0) with false by (symmetry; apply Z.leb_gt; lia).
  replace ((0 <=? s) && (s <? 2 ^ 32)) with true
    by (symmetry; rewrite andb_true_iff, Z.leb_le, Z.ltb_lt; lia).
  reflexivity.
Qed.

Lemma length_flat_map_const {A B : Type} (f : A -> list B) (l : list A) (k : nat) :
  (forall x, length (f x) = k) -> length (flat_map f l) = (length l * k)%nat.
Proof.
  intros Hf. induction l as [|a l IH]; simpl; [reflexivity|].
  rewrite length_app, Hf, IH. reflexivity.
Qed.

Lemma getEmptyCells_empty_grid (s : Z) :
  length (getEmptyCells (mkBoard s (repeat (repeat None (Z.to_nat s)) (Z.to_nat s))))
  = (Z.to_nat s * Z.to_nat s)%nat.
Proof.
  unfold getEmptyCells, dim. cbn [size grid].
  rewrite (length_flat_map_const _ _ (Z.to_nat s)), length_seq; [reflexivity|].
  intros r. rewrite (length_flat_map_const _ _ 1%nat), length_seq; [lia|].
  intros c. rewrite get_empty_grid. reflexivity.
Qed.

End EmptyCells.

(** ** Accounting of a move: score, merged tiles and tile count *)

Module MoveAccounting.
Import LineScan GridAccess Resolution MoveLines ClaimFacts.

Lemma zsum_cons (x : Z) (l : list Z) : zsum (x :: l) = x + zsum l.
Proof. reflexivity. Qed.

Lemma mergeTiles_flags (l : list tile) :
  Forall (fun t => merged t = false) l ->
  snd (mergeTiles l) = zsum (map (fun t => mergedValue (Some t)) (fst (mergeTiles l))) /\
  Z.of_nat (length l) = Z.of_nat (length (fst (mergeTiles l)))
                        + zsum (map (fun t => mergedCount (Some t)) (fst (mergeTiles l))).
Proof.
  induction l as [l IH] using (well_founded_induction
    (well_founded_ltof _ (@length tile))).
  intros HF. destruct l as [|a [|b rest]].
  - split; reflexivity.
  - inversion HF as [|? ? Ha _]; subst. cbn. rewrite Ha. split; reflexivity.
  - inversion HF as [|? ? Ha Hbr]; subst. inversion Hbr as [|? ? Hb Hr]; subst.
    rewrite mergeTiles_cons2. destruct (canMergeWith a b).
    + destruct (IH rest ltac:(unfold ltof; simpl; lia) Hr) as [I1 I2].
      destruct (mergeTiles rest) as [r sc]. cbn [fst snd map] in *.
      rewrite !zsum_cons. cbn [mergedValue mergedCount setMerged merged value length] in *.
      split; lia.
    + destruct (IH (b :: rest) ltac:(unfold ltof; simpl; lia) Hbr) as [I1 I2].
      destruct (mergeTiles (b :: rest)) as [r sc]. cbn [fst snd map] in *.
      rewrite !zsum_cons. cbn [mergedValue mergedCount length] in *. rewrite Ha.
      split; lia.
Qed.

Lemma zsum_repeat_none (f : option tile -> Z) (k : nat) :
  f None = 0 -> zsum (map f (repeat None k)) = 0.
Proof. intros H0. induction k as [|k IH]; simpl; [reflexivity|]. unfold zsum in *. lia. Qed.

Lemma zsum_compact (f : option tile -> Z) (m : list tile) (k : nat) :
  f None = 0 ->
  zsum (map f (map Some m ++ repeat None k)) = zsum (map (fun t => f (Some t)) m).
Proof.
  intros H0. rewrite map_app, zsum_app, map_map, zsum_repeat_none by exact H0. lia.
Qed.

Lemma zsum_somes (f : option tile -> Z) (L : list (option tile)) :
  f None = 0 -> zsum (map f L) = zsum (map (fun t => f (Some t)) (somes L)).
Proof.
  intros H0. induction L as [|[t|] L IH]; simpl; [reflexivity| |];
    unfold zsum in *; rewrite ?H0, IH; lia.
Qed.

Lemma somes_app (A B : list (option tile)) : somes (A ++ B) = somes A ++ somes B.
Proof. induction A as [|[t|] A IH]; simpl; congruence. Qed.

Lemma somes_rev (L : list (option tile)) : somes (List.rev L) = List.rev (somes L).
Proof.
  induction L as [|[t|] L IH]; simpl; [reflexivity| |];
    rewrite somes_app, IH; simpl; rewrite ?app_nil_r; reflexivity.
Qed.

Lemma zsum_ones (m : list tile) :
  zsum (map (fun t => tileCount (Some t)) m) = Z.of_nat (length m).
Proof.
  induction m as [|t m IH]; [reflexivity|]. cbn [map length]. rewrite zsum_cons, IH.
  change (tileCount (Some t)) with 1. lia.
Qed.

(** One resolved line: the score is the value of the merged tiles, and
    every merge removes one tile. *)
Lemma resolvedLine_accounting (rev : bool) (L : list (option tile)) :
  Forall (fun t => merged t = false) (somes L) ->
  lineScore rev L = zsum (map mergedValue (resolvedLine rev L)) /\
  zsum (map tileCount L)
  = zsum (map tileCount (resolvedLine rev L)) + zsum (map mergedCount (resolvedLine rev L)).
Proof.
  intros HF. unfold lineScore, resolvedLine.
  set (L' := if rev then List.rev L else L).
  assert (HF' : Forall (fun t => merged t = false) (somes L'))
    by (subst L'; destruct rev; [rewrite somes_rev; apply Forall_rev|]; exact HF).
  assert (Hc : zsum (map tileCount L) = zsum (map tileCount L')).
  { subst L'. destruct rev; [|reflexivity]. rewrite map_rev, zsum_rev. reflexivity. }
  assert (Hr : forall f, zsum (map f (if rev then List.rev (fst (slideAndMerge L'))
                                      else fst (slideAndMerge L')))
                         = zsum (map f (fst (slideAndMerge L')))).
  { intros f. destruct rev; [rewrite map_rev, zsum_rev|]; reflexivity. }
  replace (if rev then List.rev (fst (slideAndMerge (List.rev L)))
           else fst (slideAndMerge L))
    with (if rev then List.rev (fst (slideAndMerge L')) else fst (slideAndMerge L'))
    by (subst L'; destruct rev; reflexivity).
  rewrite Hc, !Hr, (zsum_somes tileCount L') by reflexivity.
  rewrite slideAndMerge_spec. cbn [fst snd].
  rewrite !zsum_compact by reflexivity.
  rewrite !zsum_ones.
  exact (mergeTiles_flags _ HF').
Qed.

Lemma gridSum_lines (f : option tile -> Z) (vert : bool) (n : nat) (g : grid_t) :
  gridSum f n g =
  zsum (map (fun k => zsum (map f (readLine vert n g k))) (seq 0 n)).
Proof.
  unfold gridSum, readLine. destruct vert.
  - rewrite zsum_swap. apply f_equal, map_ext. intros k.
    rewrite map_map. reflexivity.
  - apply f_equal, map_ext. intros k. rewrite map_map. reflexivity.
Qed.

Lemma gridSum_ext (f h : option tile -> Z) (n : nat) (g g' : grid_t) :
  (forall r c, (r < n)%nat -> (c < n)%nat -> f (get g r c) = h (get g' r c)) ->
  gridSum f n g = gridSum h n g'.
Proof.
  intros H. unfold gridSum. apply f_equal, map_ext_in. intros r Hr.
  apply f_equal, map_ext_in. intros c Hc.
  apply in_seq in Hr. apply in_seq in Hc. apply H; lia.
Qed.

Lemma gridSum_zero (f : option tile -> Z) (n : nat) (g : grid_t) :
  (forall r c, (r < n)%nat -> (c < n)%nat -> f (get g r c) = 0) ->
  gridSum f n g = 0.
Proof.
  intros H. unfold gridSum.
  rewrite (map_ext_in _ (fun _ => 0)); [apply zsum_map_zero|].
  intros r Hr. rewrite (map_ext_in _ (fun _ => 0)); [apply zsum_map_zero|].
  intros c Hc. apply in_seq in Hr. apply in_seq in Hc. apply H; lia.
Qed.

Lemma gridSum_add (f h : option tile -> Z) (n : nat) (g : grid_t) :
  gridSum (fun o => f o + h o) n g = gridSum f n g + gridSum h n g.
Proof.
  unfold gridSum. rewrite <- zsum_map_add. apply f_equal, map_ext. intros r.
  apply zsum_map_add.
Qed.

Lemma somes_reset_unmerged (L : list (option tile)) :
  Forall (fun t => merged t = false) (somes (map (option_map resetMerged) L)).
Proof. induction L as [|[t|] L IH]; simpl; auto. Qed.

Lemma readLine_clearMerged (vert : bool) (n : nat) (g : grid_t) (k : nat) :
  readLine vert n (clearMerged g) k = map (option_map resetMerged) (readLine vert n g k).
Proof.
  unfold readLine. rewrite map_map. apply map_ext. intros j.
  apply getAt_clearMerged.
Qed.

Lemma readLine_unmerged (vert : bool) (n : nat) (g : grid_t) (k : nat) :
  Forall (fun t => merged t = false) (somes (readLine vert n (clearMerged g) k)).
Proof. rewrite readLine_clearMerged. apply somes_reset_unmerged. Qed.

Lemma mergedValue_unmerged (L : list (option tile)) :
  Forall (fun t => merged t = false) (somes L) -> zsum (map mergedValue L) = 0.
Proof.
  intros HF. rewrite zsum_somes by reflexivity.
  induction HF as [|t l Ht _ IH]; [reflexivity|].
  cbn [map]. rewrite zsum_cons.
  change (mergedValue (Some t)) with (if merged t then value t else 0). rewrite Ht. lia.
Qed.

Lemma mergedCount_unmerged (L : list (option tile)) :
  Forall (fun t => merged t = false) (somes L) -> zsum (map mergedCount L) = 0.
Proof.
  intros HF. rewrite zsum_somes by reflexivity.
  induction HF as [|t l Ht _ IH]; [reflexivity|].
  cbn [map]. rewrite zsum_cons.
  change (mergedCount (Some t)) with (if merged t then 1 else 0). rewrite Ht. lia.
Qed.

Lemma cell_reset_weights (o : option tile) :
  mergedValue (option_map resetMerged o) = 0 /\
  mergedCount (option_map resetMerged o) = 0 /\
  tileCount (option_map resetMerged o) = tileCount o /\
  cellValue (option_map resetMerged o) = cellValue o.
Proof. destruct o; repeat split. Qed.

End MoveAccounting.

(** ** Full lines, stuck boards and moves that move *)

Module MoveFixedPoints.
Import LineScan GridAccess Resolution MoveLines ClaimFacts MoveAccounting.

Definition noEqualPair (m : list tile) : Prop :=
  forall i a a', nth_error m i = Some a -> nth_error m (S i) = Some a' ->
                 value a <> value a'.

Lemma somes_full (X : list (option tile)) :
  length (somes X) = length X ->
  forall j, (j < length X)%nat -> isTile (nth j X None) = true.
Proof.
  induction X as [|[t|] X IH]; simpl; intros H j Hj; [lia| |].
  - destruct j; [reflexivity|]. apply IH; lia.
  - pose proof (somes_length X). lia.
Qed.

Lemma full_somes (X : list (option tile)) :
  (forall j, (j < length X)%nat -> isTile (nth j X None) = true) ->
  X = map Some (somes X).
Proof.
  induction X as [|[t|] X IH]; intros H; simpl; [reflexivity| |].
  - f_equal. apply IH. intros j Hj. apply (H (S j)). simpl. lia.
  - specialize (H 0%nat ltac:(simpl; lia)). discriminate.
Qed.

Lemma somes_map_some (m : list tile) : somes (map Some m) = m.
Proof. induction m as [|t m IH]; simpl; congruence. Qed.

Lemma noEqualPair_rev (m : list tile) : noEqualPair m -> noEqualPair (List.rev m).
Proof.
  intros H i a a' Ha Ha'. rewrite nth_error_rev in Ha, Ha'.
  destruct (Nat.ltb_spec (S i) (length m)) as [Hi|Hi]; [|discriminate].
  destruct (Nat.ltb_spec i (length m)) as [Hi'|Hi']; [|lia].
  intros Heq. apply (H (length m - S (S i))%nat a' a).
  - exact Ha'.
  - replace (S (length m - S (S i))) with (length m - S i)%nat by lia. exact Ha.
  - symmetry. exact Heq.
Qed.

Lemma slideAndMerge_noEqualPair (m : list tile) :
  noEqualPair m -> slideAndMerge (map Some m) = (map Some m, 0).
Proof.
  intros H. rewrite slideAndMerge_spec, somes_map_some, mergeTiles_no_pair.
  - cbn [fst snd]. rewrite length_map, Nat.sub_diag, app_nil_r. reflexivity.
  - intros i a a' Ha Ha'. unfold canMergeWith.
    destruct (Z.eqb_spec (value a) (value a')) as [E|E]; [|reflexivity].
    exfalso. exact (H i a a' Ha Ha' E).
Qed.

(** A full line with no two adjacent tiles of equal value is left as it is
    and scores nothing. *)
Lemma resolvedLine_full_noEqualPair (rev : bool) (L : list (option tile)) :
  (forall j, (j < length L)%nat -> isTile (nth j L None) = true) ->
  (forall j a a', (S j < length L)%nat -> nth j L None = Some a ->
                  nth (S j) L None = Some a' -> value a <> value a') ->
  resolvedLine rev L = L /\ lineScore rev L = 0.
Proof.
  intros Hf Hd. pose proof (full_somes L Hf) as HL.
  set (m := somes L) in HL.
  assert (Hm : noEqualPair m).
  { intros i a a' Ha Ha'.
    assert (Hi : (S i < length m)%nat) by (apply nth_error_map_some in Ha'; exact Ha').
    apply (Hd i).
    - rewrite HL, length_map. exact Hi.
    - rewrite HL, <- (app_nil_r (map Some m)). apply nth_compact. exact Ha.
    - rewrite HL, <- (app_nil_r (map Some m)). apply nth_compact. exact Ha'. }
  unfold resolvedLine, lineScore. rewrite HL. destruct rev.
  - rewrite <- map_rev, slideAndMerge_noEqualPair by (apply noEqualPair_rev; exact Hm).
    cbn [fst snd]. rewrite map_rev, rev_involutive. split; reflexivity.
  - rewrite slideAndMerge_noEqualPair by exact Hm. split; reflexivity.
Qed.

Lemma full_length (X : list (option tile)) :
  (forall j, (j < length X)%nat -> isTile (nth j X None) = true) ->
  length (somes X) = length X.
Proof.
  intros H. rewrite (full_somes X H) at 2. rewrite length_map. reflexivity.
Qed.

(** A line whose resolution is full was full and merged nothing. *)
Lemma resolvedLine_full (rev : bool) (L : list (option tile)) :
  (forall j, (j < length L)%nat -> isTile (nth j (resolvedLine rev L) None) = true) ->
  resolvedLine rev L = L.
Proof.
  intros Hf.
  set (L' := if rev then List.rev L else L).
  assert (HlL' : length L' = length L) by (subst L'; destruct rev; rewrite ?length_rev; reflexivity).
  assert (HR : resolvedLine rev L
               = if rev then List.rev (fst (slideAndMerge L')) else fst (slideAndMerge L'))
    by (subst L'; destruct rev; reflexivity).
  set (m := fst (mergeTiles (somes L'))).
  assert (Hsm : fst (slideAndMerge L') = map Some m ++ repeat None (length L' - length m))
    by (rewrite slideAndMerge_spec; reflexivity).
  assert (Hc : length (somes (resolvedLine rev L)) = length m).
  { rewrite HR, Hsm. destruct rev; rewrite ?somes_rev, ?length_rev, somes_compact;
      reflexivity. }
  assert (Hfl : length (somes (resolvedLine rev L)) = length L).
  { rewrite full_length; [apply resolvedLine_length|].
    rewrite resolvedLine_length. exact Hf. }
  pose proof (mergeTiles_length_le (somes L')) as H1.
  pose proof (somes_length L') as H2. fold m in H1.
  assert (Hs : length (somes L') = length L') by lia.
  assert (Hm : m = somes L') by (apply mergeTiles_len_eq; fold m; lia).
  assert (Hfix : fst (slideAndMerge L') = L').
  { rewrite Hsm, Hm, Hs, Nat.sub_diag, app_nil_r.
    symmetry. apply full_somes. apply somes_full. exact Hs. }
  rewrite HR, Hfix. subst L'. destruct rev; [apply rev_involutive|reflexivity].
Qed.

(** A move that reports [moved = true] leaves an empty cell. *)
Lemma moved_leaves_empty (b : board) (d : string) :
  WF b -> fst (snd (moveWithScore b d)) = true ->
  exists r c, (r < dim b)%nat /\ (c < dim b)%nat /\
    get (grid (fst (moveWithScore b d))) r c = None.
Proof.
  intros Hwf Hm.
  destruct (existsb (fun r => existsb (fun c =>
              negb (isTile (get (grid (fst (moveWithScore b d))) r c)))
              (seq 0 (dim b))) (seq 0 (dim b))) eqn:E.
  - apply existsb_exists in E as (r & Hr & E).
    apply existsb_exists in E as (c & Hc & E).
    apply in_seq in Hr. apply in_seq in Hc. exists r, c.
    split; [lia|]. split; [lia|].
    destruct (get (grid (fst (moveWithScore b d))) r c); [discriminate|reflexivity].
  - exfalso.
    assert (Hfull : forall r c, (r < dim b)%nat -> (c < dim b)%nat ->
              isTile (get (grid (fst (moveWithScore b d))) r c) = true).
    { intros r c Hr Hc.
      pose proof (existsb_false_in _ _ r E ltac:(apply in_seq; lia)) as E1.
      pose proof (existsb_false_in _ _ c E1 ltac:(apply in_seq; lia)) as E2.
      cbv beta in E2. apply negb_false_iff in E2. exact E2. }
    rewrite moveWithScore_axis in Hm, Hfull.
    destruct (axis d) as [[vert rev]|]; cbn [fst snd grid] in *; [|discriminate].
    set (n := dim b) in *. set (g0 := clearMerged (grid b)) in *.
    destruct (linesWithScore_spec vert rev n g0 (shape_clearMerged _ _ Hwf))
      as (S1 & S2 & S3 & S4).
    rewrite S3 in Hm. rewrite existsb_all_false in Hm; [discriminate|].
    intros k Hk. apply in_seq in Hk. apply lineMoved_fixed. apply resolvedLine_full.
    intros j Hj. rewrite readLine_length in Hj.
    rewrite <- S2 by lia. unfold getAt. destruct vert; apply Hfull; lia.
Qed.

(** A move that reports [moved = false] scores nothing. *)
Lemma unmoved_score_zero (b : board) (d : string) :
  WF b -> fst (snd (moveWithScore b d)) = false -> snd (snd (moveWithScore b d)) = 0.
Proof.
  intros Hwf Hm. rewrite moveWithScore_axis in *.
  destruct (axis d) as [[vert rev]|]; cbn [fst snd] in *; [|reflexivity].
  set (n := dim b) in *. set (g0 := clearMerged (grid b)) in *.
  destruct (linesWithScore_spec vert rev n g0 (shape_clearMerged _ _ Hwf))
    as (S1 & S2 & S3 & S4).
  rewrite S3 in Hm. rewrite S4.
  rewrite (map_ext_in _ (fun _ => 0)); [apply zsum_map_zero|].
  intros k Hk.
  pose proof (existsb_false_in _ _ k Hm Hk) as Hk'.
  destruct (resolvedLine_accounting rev (readLine vert n g0 k)
              (readLine_unmerged vert n (grid b) k)) as [A _].
  rewrite A, (resolvedLine_fixed n) by (apply readLine_length || exact Hk').
  apply mergedValue_unmerged, readLine_unmerged.
Qed.

(** On a board where [hasMoves] is false, no direction moves or scores. *)
Lemma stuck_unmoved (b : board) (d : string) :
  WF b -> hasMoves b = false ->
  fst (snd (moveWithScore b d)) = false /\ snd (snd (moveWithScore b d)) = 0.
Proof.
  intros Hwf Hh.
  assert (Hcell : forall r c, (r < dim b)%nat -> (c < dim b)%nat ->
            exists t, get (grid b) r c = Some t /\
              forall o, In o neighbourOffsets -> sameNeighbour b t r c o = false).
  { intros r c Hr Hc. unfold hasMoves in Hh.
    pose proof (existsb_false_in _ _ r Hh ltac:(apply in_seq; lia)) as E1.
    pose proof (existsb_false_in _ _ c E1 ltac:(apply in_seq; lia)) as E2.
    cbv beta in E2. destruct (get (grid b) r c) as [t|]; [|discriminate].
    exists t. split; [reflexivity|]. intros o Ho. exact (existsb_false_in _ _ o E2 Ho). }
  assert (Hline : forall vert rev k, (k < dim b)%nat ->
            resolvedLine rev (readLine vert (dim b) (clearMerged (grid b)) k)
              = readLine vert (dim b) (clearMerged (grid b)) k /\
            lineScore rev (readLine vert (dim b) (clearMerged (grid b)) k) = 0).
  { intros vert rev k Hk. apply resolvedLine_full_noEqualPair.
    - intros j Hj. rewrite readLine_length in Hj.
      rewrite nth_readLine, getAt_clearMerged by exact Hj.
      unfold getAt. destruct vert;
        [destruct (Hcell j k Hj Hk) as (t & Et & _)
        |destruct (Hcell k j Hk Hj) as (t & Et & _)]; rewrite Et; reflexivity.
    - intros j a a' Hj Ea Ea'. rewrite readLine_length in Hj.
      rewrite nth_readLine, getAt_clearMerged in Ea, Ea' by lia.
      unfold getAt in Ea, Ea'. destruct vert.
      + destruct (Hcell j k ltac:(lia) Hk) as (t & Et & Ht).
        destruct (Hcell (S j) k Hj Hk) as (t' & Et' & _).
        rewrite Et in Ea. rewrite Et' in Ea'.
        injection Ea as <-. injection Ea' as <-. cbn [resetMerged setMerged value].
        intros Heq. assert (Hs : sameNeighbour b t j k (1, 0) = true)
          by (apply (sameNeighbour_at b t t' j k (S j) k); auto; lia).
        rewrite Ht in Hs; [discriminate|]. simpl. tauto.
      + destruct (Hcell k j Hk ltac:(lia)) as (t & Et & Ht).
        destruct (Hcell k (S j) Hk Hj) as (t' & Et' & _).
        rewrite Et in Ea. rewrite Et' in Ea'.
        injection Ea as <-. injection Ea' as <-. cbn [resetMerged setMerged value].
        intros Heq. assert (Hs : sameNeighbour b t k j (0, 1) = true)
          by (apply (sameNeighbour_at b t t' k j k (S j)); auto; lia).
        rewrite Ht in Hs; [discriminate|]. simpl. tauto. }
  rewrite moveWithScore_axis.
  destruct (axis d) as [[vert rev]|]; cbn [fst snd]; [|split; reflexivity].
  destruct (linesWithScore_spec vert rev (dim b) (clearMerged (grid b))
              (shape_clearMerged _ _ Hwf)) as (S1 & S2 & S3 & S4).
  rewrite S3, S4. split.
  - apply existsb_all_false. intros k Hk. apply in_seq in Hk.
    apply lineMoved_fixed. apply Hline. lia.
  - rewrite (map_ext_in _ (fun _ => 0)); [apply zsum_map_zero|].
    intros k Hk. apply in_seq in Hk. apply Hline. lia.
Qed.

End MoveFixedPoints.

(** ** Updates of one cell, the score of the controller, scans *)

Module BoardUpdates.
Import LineScan GridAccess Resolution MoveLines ClaimFacts EmptyCells MoveAccounting
  MoveFixedPoints.

Lemma zsum_map_point (h h' : nat -> Z) (l : list nat) (x : nat) :
  NoDup l -> In x l -> (forall y, In y l -> y <> x -> h' y = h y) ->
  zsum (map h' l) = zsum (map h l) + (h' x - h x).
Proof.
  induction l as [|a l IH]; intros Hnd Hx Hh; [destruct Hx|].
  inversion Hnd as [|? ? Ha Hl]; subst. cbn [map]. rewrite !zsum_cons.
  destruct (Nat.eq_dec a x) as [->|Hne].
  - assert (E : zsum (map h' l) = zsum (map h l)).
    { apply f_equal, map_ext_in. intros y Hy. apply Hh; [right; exact Hy|].
      intros ->. contradiction. }
    lia.
  - destruct Hx as [->|Hx]; [contradiction|].
    rewrite (IH Hl Hx) by (intros y Hy; apply Hh; right; exact Hy).
    rewrite (Hh a (or_introl eq_refl) Hne). lia.
Qed.

Lemma gridSum_set (f : option tile -> Z) (n : nat) (g : grid_t) (r c : nat)
  (v : option tile) :
  shape n g -> (r < n)%nat -> (c < n)%nat ->
  gridSum f n (set g r c v) = gridSum f n g + (f v - f (get g r c)).
Proof.
  intros [Hl Hrow] Hr Hc. unfold gridSum.
  rewrite (zsum_map_point (fun r0 => zsum (map (fun c0 => f (get g r0 c0)) (seq 0 n)))
             (fun r0 => zsum (map (fun c0 => f (get (set g r c v) r0 c0)) (seq 0 n)))
             (seq 0 n) r); [| apply seq_NoDup | apply in_seq; lia | ].
  - rewrite (zsum_map_point (fun c0 => f (get g r c0))
               (fun c0 => f (get (set g r c v) r c0)) (seq 0 n) c);
      [| apply seq_NoDup | apply in_seq; lia | ].
    + rewrite get_set_eq by (lia || (rewrite Hrow; lia)). lia.
    + intros y _ Hy. rewrite get_set_neq; [reflexivity|].
      intros E. injection E; intros; lia.
  - intros y _ Hy. apply f_equal, map_ext. intros c0.
    rewrite get_set_neq; [reflexivity|]. intros E. injection E; intros; lia.
Qed.

Lemma fold_left_sum {A : Type} (F : Z -> A -> Z) (h : A -> Z) (l : list A) (s : Z) :
  (forall s x, F s x = s + h x) -> fold_left F l s = s + zsum (map h l).
Proof.
  intros HF. revert s. induction l as [|x l IH]; intros s; simpl; [lia|].
  rewrite IH, HF. unfold zsum. simpl. lia.
Qed.

Lemma updateScore_gridSum (b : board) :
  updateScore b = gridSum cellValue (dim b) (grid b).
Proof.
  unfold updateScore, gridSum.
  rewrite (fold_left_sum _ (fun r => zsum (map (fun c => cellValue (get (grid b) r c))
                                          (seq 0 (dim b))))); [lia|].
  intros s r. apply fold_left_sum. intros s' c.
  destruct (get (grid b) r c); simpl; lia.
Qed.

(** A move keeps the sum of the tile values. *)
Lemma moveWithScore_gridSum (b : board) (d : string) :
  WF b ->
  gridSum cellValue (dim b) (grid (fst (moveWithScore b d)))
  = gridSum cellValue (dim b) (grid b).
Proof.
  intros Hwf.
  assert (Hc : gridSum cellValue (dim b) (clearMerged (grid b))
               = gridSum cellValue (dim b) (grid b)).
  { apply gridSum_ext. intros r c _ _. rewrite get_clearMerged.
    apply cell_reset_weights. }
  rewrite moveWithScore_axis.
  destruct (axis d) as [[vert rev]|]; cbn [fst grid]; [|exact Hc].
  rewrite <- Hc, !(gridSum_lines cellValue vert).
  apply f_equal, map_ext_in. intros k Hk. apply in_seq in Hk.
  rewrite readLine_after; [apply resolvedLine_sum| |lia].
  apply shape_clearMerged. exact Hwf.
Qed.

Lemma getEmptyCells_set (b : board) (r c : nat) (t : tile) :
  WF b -> In (r, c) (getEmptyCells b) ->
  length (getEmptyCells b)
  = S (length (getEmptyCells (mkBoard (size b) (set (grid b) r c (Some t))))).
Proof.
  intros [Hl Hrow] Hin.
  set (b' := mkBoard (size b) (set (grid b) r c (Some t))).
  pose proof Hin as Hin0. apply In_getEmptyCells in Hin0 as (Hr & Hc & G).
  assert (H' : forall p, In p (getEmptyCells b') <-> In p (getEmptyCells b) /\ p <> (r, c)).
  { intros [r' c']. rewrite !In_getEmptyCells. unfold b', dim. cbn [size grid].
    fold (dim b). split.
    - intros (Hr' & Hc' & G').
      destruct (Nat.eq_dec r' r) as [->|Er]; [destruct (Nat.eq_dec c' c) as [->|Ec]|].
      + rewrite get_set_eq in G' by (rewrite ?Hl, ?Hrow; lia). discriminate.
      + rewrite get_set_neq in G' by (intros E; injection E; intros; lia).
        split; [auto|]. intros E; injection E; intros; lia.
      + rewrite get_set_neq in G' by (intros E; injection E; intros; lia).
        split; [auto|]. intros E; injection E; intros; lia.
    - intros ((Hr' & Hc' & G') & E).
      rewrite get_set_neq by (intros E'; apply E; symmetry; exact E'). auto. }
  assert (Hnd : NoDup ((r, c) :: getEmptyCells b')).
  { constructor; [|apply NoDup_getEmptyCells].
    intros Hx. apply H' in Hx as [_ Hx]. apply Hx. reflexivity. }
  apply Nat.le_antisymm.
  - change (S (length (getEmptyCells b'))) with (length ((r, c) :: getEmptyCells b')).
    apply NoDup_incl_length; [apply NoDup_getEmptyCells|].
    intros [r' c'] Hp.
    destruct (Nat.eq_dec r' r) as [->|Er]; [destruct (Nat.eq_dec c' c) as [->|Ec]|].
    + left. reflexivity.
    + right. apply H'. split; [exact Hp|]. intros E; injection E; intros; lia.
    + right. apply H'. split; [exact Hp|]. intros E; injection E; intros; lia.
  - change (S (length (getEmptyCells b'))) with (length ((r, c) :: getEmptyCells b')).
    apply NoDup_incl_length; [exact Hnd|].
    intros p [<-|Hp]; [exact Hin|]. apply H' in Hp as [Hp _]. exact Hp.
Qed.

Lemma hasMoves_empty_cell (b : board) (r c : nat) :
  (r < dim b)%nat -> (c < dim b)%nat -> get (grid b) r c = None -> hasMoves b = true.
Proof.
  intros Hr Hc G. unfold hasMoves. apply existsb_exists. exists r.
  split; [apply in_seq; lia|]. apply existsb_exists. exists c.
  split; [apply in_seq; lia|]. rewrite G. reflexivity.
Qed.

Lemma mergeTiles_score_nonneg (l : list tile) :
  Forall (fun t => 0 <= value t) l -> 0 <= snd (mergeTiles l).
Proof.
  induction l as [l IH] using (well_founded_induction
    (well_founded_ltof _ (@length tile))).
  intros HF. destruct l as [|a [|b rest]]; [simpl; lia|simpl; lia|].
  inversion HF as [|? ? Ha Hbr]; subst. inversion Hbr as [|? ? Hb Hr]; subst.
  rewrite mergeTiles_cons2. destruct (canMergeWith a b).
  - pose proof (IH rest ltac:(unfold ltof; simpl; lia) Hr) as I.
    destruct (mergeTiles rest) as [r sc]. simpl in *. lia.
  - pose proof (IH (b :: rest) ltac:(unfold ltof; simpl; lia) Hbr) as I.
    destruct (mergeTiles (b :: rest)) as [r sc]. simpl in *. lia.
Qed.

Lemma Forall_somes (P : tile -> Prop) (L : list (option tile)) :
  (forall j t, nth j L None = Some t -> P t) -> Forall P (somes L).
Proof.
  induction L as [|[t|] L IH]; intros H; simpl; [constructor| |].
  - constructor; [apply (H 0%nat); reflexivity|].
    apply IH. intros j t' E. apply (H (S j)). exact E.
  - apply IH. intros j t' E. apply (H (S j)). exact E.
Qed.

Lemma zsum_nonneg (l : list Z) : Forall (fun x => 0 <= x) l -> 0 <= zsum l.
Proof. induction 1; unfold zsum in *; simpl; lia. Qed.

(** With tile values that are not negative, a move scores at least 0. *)
Lemma moveWithScore_score_nonneg (b : board) (d : string) :
  WF b -> (forall r c t, get (grid b) r c = Some t -> 0 <= value t) ->
  0 <= snd (snd (moveWithScore b d)).
Proof.
  intros Hwf Hv. rewrite moveWithScore_axis.
  destruct (axis d) as [[vert rev]|]; cbn [fst snd]; [|lia].
  destruct (linesWithScore_spec vert rev (dim b) (clearMerged (grid b))
              (shape_clearMerged _ _ Hwf)) as (_ & _ & _ & S4).
  rewrite S4. apply zsum_nonneg. apply Forall_forall. intros x Hx.
  apply in_map_iff in Hx as (k & <- & _).
  unfold lineScore. rewrite slideAndMerge_spec. cbn [snd].
  apply mergeTiles_score_nonneg. apply Forall_somes.
  assert (HL : forall j t, nth j (readLine vert (dim b) (clearMerged (grid b)) k) None
                           = Some t -> 0 <= value t).
  { intros j t E. destruct (Nat.lt_ge_cases j (dim b)) as [Hj|Hj].
    - rewrite nth_readLine, getAt_clearMerged in E by exact Hj.
      unfold getAt in E.
      destruct (if vert then get (grid b) j k else get (grid b) k j) as [t0|] eqn:G;
        [|discriminate].
      injection E as <-. cbn [resetMerged setMerged value].
      destruct vert; eapply Hv; exact G.
    - rewrite nth_overflow in E by (rewrite readLine_length; exact Hj). discriminate. }
  destruct rev; [|exact HL].
  intros j t E. destruct (Nat.lt_ge_cases j (dim b)) as [Hj|Hj].
  - rewrite rev_nth in E by (rewrite readLine_length; exact Hj). eapply HL. exact E.
  - rewrite nth_overflow in E by (rewrite length_rev, readLine_length; exact Hj).
    discriminate.
Qed.

Lemma checkWinCondition_fields (g : game) :
  score (fst (checkWinCondition g)) = score g /\
  gboard (fst (checkWinCondition g)) = gboard g /\
  lastMoveTime (fst (checkWinCondition g)) = lastMoveTime g /\
  hasWon (fst (checkWinCondition g)) = hasWon g || hasTile2048 (gboard g) /\
  (snd (checkWinCondition g) = [] \/
   (snd (checkWinCondition g) = [ShowWin] /\ hasWon g = false /\
    hasTile2048 (gboard g) = true)).
Proof.
  unfold checkWinCondition.
  destruct (hasWon g) eqn:Hw; cbn [fst snd score gboard lastMoveTime hasWon];
    [rewrite Hw; repeat split; left; reflexivity|].
  destruct (hasTile2048 (gboard g)) eqn:Ht;
    cbn [fst snd score gboard lastMoveTime hasWon orb]; rewrite ?Hw, ?Ht;
    repeat split; [right; auto|left; reflexivity].
Qed.

Lemma find_seq_first (f : nat -> bool) (s len x : nat) :
  find f (seq s len) = Some x ->
  (s <= x < s + len)%nat /\ f x = true /\ forall y, (s <= y < x)%nat -> f y = false.
Proof.
  revert s. induction len as [|len IH]; intros s H; simpl in H; [discriminate|].
  destruct (f s) eqn:E.
  - injection H as <-. split; [lia|]. split; [exact E|]. intros y Hy. lia.
  - destruct (IH (S s) H) as (H1 & H2 & H3). split; [lia|]. split; [exact H2|].
    intros y Hy. destruct (Nat.eq_dec y s) as [->|Hne]; [exact E|]. apply H3. lia.
Qed.

Lemma find_rev_seq (f : nat -> bool) (k x : nat) :
  find f (List.rev (seq 0 k)) = Some x ->
  (x < k)%nat /\ f x = true /\ forall y, (x < y < k)%nat -> f y = false.
Proof.
  induction k as [|k IH]; intros H; [discriminate|].
  rewrite seq_S, rev_app_distr in H. cbn [List.rev app find] in H.
  destruct (f (0 + k)%nat) eqn:E.
  - injection H as <-. split; [lia|]. split; [exact E|]. intros y Hy. lia.
  - destruct (IH H) as (H1 & H2 & H3). split; [lia|]. split; [exact H2|].
    intros y Hy. destruct (Nat.eq_dec y k) as [->|Hne]; [exact E|]. apply H3. lia.
Qed.

End BoardUpdates.

(** ** Facts on the controller ([Game]) *)

Module GameFacts.
Import LineScan GridAccess Resolution MoveLines ClaimFacts EmptyCells MoveAccounting
  MoveFixedPoints BoardUpdates.

Lemma hasTile2048_spec (b : board) :
  hasTile2048 b = true <->
  exists r c t, (r < dim b)%nat /\ (c < dim b)%nat /\ get (grid b) r c = Some t /\
    2048 <= value t.
Proof.
  unfold hasTile2048. rewrite existsb_exists. split.
  - intros (r & Hr & H). apply existsb_exists in H as (c & Hc & H).
    apply in_seq in Hr, Hc.
    destruct (get (grid b) r c) as [t|] eqn:G; [|discriminate].
    apply Z.leb_le in H. exists r, c, t. repeat split; auto; lia.
  - intros (r & c & t & Hr & Hc & G & Hv). exists r.
    split; [apply in_seq; lia|]. apply existsb_exists. exists c.
    split; [apply in_seq; lia|]. rewrite G. apply Z.leb_le. exact Hv.
Qed.

Lemma nth_map_seq_lt {A : Type} (f : nat -> A) (n x : nat) (d : A) :
  (x < n)%nat -> nth x (map f (seq 0 n)) d = f x.
Proof.
  intros H. rewrite nth_indep with (d' := f 0%nat) by (rewrite length_map, length_seq; lia).
  rewrite map_nth, seq_nth by lia. reflexivity.
Qed.

Lemma stateHas_capture (b : board) (v : Z) (x y : nat) :
  stateHas (captureCurrentState b) v x y = true <->
  (x < dim b)%nat /\ (y < dim b)%nat /\ option_map value (get (grid b) x y) = Some v.
Proof.
  unfold stateHas, captureCurrentState.
  destruct (Nat.lt_ge_cases x (dim b)) as [Hx|Hx].
  - rewrite nth_map_seq_lt by exact Hx.
    destruct (Nat.lt_ge_cases y (dim b)) as [Hy|Hy].
    + rewrite nth_map_seq_lt by exact Hy.
      destruct (get (grid b) x y) as [t|]; cbn [option_map].
      * rewrite Z.eqb_eq. split; [intros ->; auto|].
        intros (_ & _ & E). injection E as E. exact E.
      * split; [discriminate|]. intros (_ & _ & E). discriminate.
    + rewrite nth_overflow by (rewrite length_map, length_seq; lia).
      split; [discriminate|lia].
  - rewrite (nth_overflow (map _ (seq 0 (dim b))) (n := x))
      by (rewrite length_map, length_seq; lia).
    replace (nth y [] None) with (@None Z) by (destruct y; reflexivity).
    split; [discriminate|lia].
Qed.

Lemma dim_moveWithScore (b : board) (d : string) :
  dim (fst (moveWithScore b d)) = dim b.
Proof.
  unfold dim. rewrite moveWithScore_axis. destruct (axis d) as [[? ?]|]; reflexivity.
Qed.

Lemma moveWithScore_WF_size (b : board) (d : string) :
  WF b -> WF (fst (moveWithScore b d)) /\ size (fst (moveWithScore b d)) = size b.
Proof.
  intros Hwf. split; [|unfold dim; rewrite moveWithScore_axis;
                       destruct (axis d) as [[? ?]|]; reflexivity].
  unfold WF. rewrite dim_moveWithScore. rewrite moveWithScore_axis.
  destruct (axis d) as [[vert rev]|]; cbn [fst grid].
  - destruct (linesWithScore_spec vert rev (dim b) (clearMerged (grid b))
                (shape_clearMerged _ _ Hwf)) as (S1 & _). exact S1.
  - apply shape_clearMerged. exact Hwf.
Qed.

Lemma moveWithScore_updateScore (b : board) (d : string) :
  WF b -> updateScore (fst (moveWithScore b d)) = updateScore b.
Proof.
  intros Hwf. rewrite !updateScore_gridSum, dim_moveWithScore.
  apply moveWithScore_gridSum. exact Hwf.
Qed.

Lemma moved_hasMoves (b : board) (d : string) :
  WF b -> fst (snd (moveWithScore b d)) = true ->
  hasMoves (fst (moveWithScore b d)) = true.
Proof.
  intros Hwf Hm. destruct (moved_leaves_empty b d Hwf Hm) as (r & c & Hr & Hc & G).
  apply (hasMoves_empty_cell _ r c); [rewrite dim_moveWithScore; exact Hr
                                    |rewrite dim_moveWithScore; exact Hc|exact G].
Qed.

Lemma length_flat_map_zsum {A B : Type} (f : A -> list B) (l : list A) :
  Z.of_nat (length (flat_map f l)) = zsum (map (fun x => Z.of_nat (length (f x))) l).
Proof.
  induction l as [|a l IH]; [reflexivity|]. cbn [flat_map map].
  rewrite length_app, Nat2Z.inj_add, zsum_cons, IH. reflexivity.
Qed.

Lemma zsum_const {A : Type} (k : Z) (l : list A) :
  zsum (map (fun _ => k) l) = k * Z.of_nat (length l).
Proof.
  induction l as [|a l IH]; [cbn; lia|]. cbn [map length].
  rewrite zsum_cons, IH. lia.
Qed.

Lemma getEmptyCells_count (b : board) :
  Z.of_nat (length (getEmptyCells b)) + gridSum tileCount (dim b) (grid b)
  = Z.of_nat (dim b * dim b).
Proof.
  unfold getEmptyCells, gridSum. rewrite length_flat_map_zsum, <- zsum_map_add.
  rewrite (map_ext_in _ (fun _ => Z.of_nat (dim b))).
  - rewrite zsum_const, length_seq. lia.
  - intros r _. rewrite length_flat_map_zsum, <- zsum_map_add.
    rewrite (map_ext_in _ (fun _ => 1)).
    + rewrite zsum_const, length_seq. lia.
    + intros c _. unfold tileCount. destruct (isTile (get (grid b) r c)); reflexivity.
Qed.

Lemma addRandomTile_effects (b : board) (idx : nat) (coin : bool) (id : nat) :
  WF b -> (idx < length (getEmptyCells b))%nat ->
  WF (snd (addRandomTile b idx coin id)) /\
  length (getEmptyCells b) = S (length (getEmptyCells (snd (addRandomTile b idx coin id)))) /\
  updateScore (snd (addRandomTile b idx coin id)) = updateScore b + (if coin then 2 else 4).
Proof.
  intros Hwf Hidx. unfold addRandomTile.
  destruct (getEmptyCells b) as [|p ps] eqn:E; [cbn in Hidx; lia|]. cbv iota.
  rewrite <- E in Hidx |- *.
  destruct (nth idx (getEmptyCells b) (0, 0)%nat) as [r c] eqn:N. cbn [snd].
  assert (Hin : In (r, c) (getEmptyCells b)) by (rewrite <- N; apply nth_In; exact Hidx).
  pose proof Hin as Hin'. apply In_getEmptyCells in Hin' as (Hr & Hc & G).
  split; [|split].
  - unfold WF, dim. cbn [size grid]. fold (dim b). apply shape_set. exact Hwf.
  - apply getEmptyCells_set; assumption.
  - rewrite !updateScore_gridSum. unfold dim at 1. cbn [size grid]. fold (dim b).
    rewrite gridSum_set by assumption. rewrite G. destruct coin; reflexivity.
Qed.

Lemma Game_move_cases (g : game) (d : string) (now : Z) (idx : nat) (coin : bool)
  (id : nat) (b1 : board) (moved : bool) (sc : Z) :
  moveWithScore (gboard g) d = (b1, (moved, sc)) ->
  exists g2 t1,
    score g2 = score g + sc /\ hasWon g2 = hasWon g /\ lastMoveTime g2 = now /\
    ((150 <= now - lastMoveTime g /\ gboard g2 = b1 /\ t1 = [SpawnAndRender]) \/
     (now - lastMoveTime g < 150 /\ gboard g2 = snd (addRandomTile b1 idx coin id) /\
      t1 = [ClearTransform])) /\
    Game_move g d now idx coin id =
    if moved then
      (fst (checkWinCondition g2),
       t1 ++ snd (checkWinCondition g2) ++
       (if hasMoves (gboard g2) then [] else [ShowGameOver]))
    else (mkGame (score g) b1 (hasWon g) (lastMoveTime g), [ClearFilter]).
Proof.
  intros E. unfold Game_move. rewrite E.
  destruct (now - lastMoveTime g <? 150) eqn:T.
  - exists (mkGame (score g + sc) (snd (addRandomTile b1 idx coin id)) (hasWon g) now),
      [ClearTransform].
    apply Z.ltb_lt in T. cbn [score hasWon lastMoveTime gboard].
    split; [reflexivity|]. split; [reflexivity|]. split; [reflexivity|].
    split; [right; auto|].
    destruct moved; [|reflexivity].
    match goal with |- context [checkWinCondition ?x] =>
      pose proof (proj1 (proj2 (checkWinCondition_fields x))) as F;
      destruct (checkWinCondition x) as [g3 t2] end.
    cbn [fst snd gboard] in *. rewrite F. reflexivity.
  - exists (mkGame (score g + sc) b1 (hasWon g) now), [SpawnAndRender].
    apply Z.ltb_ge in T. cbn [score hasWon lastMoveTime gboard].
    split; [reflexivity|]. split; [reflexivity|]. split; [reflexivity|].
    split; [left; auto|].
    destruct moved; [|reflexivity].
    match goal with |- context [checkWinCondition ?x] =>
      pose proof (proj1 (proj2 (checkWinCondition_fields x))) as F;
      destruct (checkWinCondition x) as [g3 t2] end.
    cbn [fst snd gboard] in *. rewrite F. reflexivity.
Qed.

Lemma js_includes_In (l : list string) (x : string) :
  js_includes l x = true <-> In x l.
Proof.
  unfold js_includes. rewrite existsb_exists. split.
  - intros (y & Hy & E). apply String.eqb_eq in E. subst y. exact Hy.
  - intros H. exists x. split; [exact H|]. apply String.eqb_refl.
Qed.

End GameFacts.

(** * The claims *)

Import LineScan GridAccess Resolution MoveLines ClaimFacts EmptyCells.

(** Shape of a concrete board. *)
Ltac solve_WF :=
  split; [reflexivity|];
  let r := fresh "r" in let Hr := fresh "Hr" in
  intros r Hr; vm_compute in Hr;
  repeat (destruct r as [|r]; [reflexivity|]); lia.

(** C1: four tiles of value 2 in a line (not yet merged in this move)
    slide and merge pairwise into two tiles of value 4 at the front of the
    line, for a merged score of 4 + 4 = 8; they never form one tile of
    value 8. *)
Theorem slideAndMerge_four_twos (t1 t2 t3 t4 : tile) :
  value t1 = 2 -> value t2 = 2 -> value t3 = 2 -> value t4 = 2 ->
  merged t1 = false -> merged t2 = false -> merged t3 = false ->
  merged t4 = false ->
  map occupant (fst (slideAndMerge [Some t1; Some t2; Some t3; Some t4]))
    = [Some 4; Some 4; None; None] /\
  snd (slideAndMerge [Some t1; Some t2; Some t3; Some t4]) = 8.
Proof.
  intros H1 H2 H3 H4 M1 M2 M3 M4.
  rewrite slideAndMerge_spec. cbn [somes].
  rewrite !mergeTiles_cons2.
  unfold canMergeWith. rewrite H1, H2, H3, H4, M1, M2, M3, M4. simpl.
  split; reflexivity.
Qed.

Lemma slideAndMerge_four_twos_witness :
  (map occupant (fst (slideAndMerge
     [Some (newTile 1 2); Some (newTile 2 2); Some (newTile 3 2); Some (newTile 4 2)]))
    = [Some 4; Some 4; None; None] /\
   snd (slideAndMerge
     [Some (newTile 1 2); Some (newTile 2 2); Some (newTile 3 2); Some (newTile 4 2)]) = 8).
Proof.
  apply slideAndMerge_four_twos; reflexivity.
Defined.

(** C4: when a move reports [moved = false], every cell holds the same
    occupant as before: the same tile object (same presence) with the same
    value.  (The [merged] flags of the tiles are reset by every move.) *)
Theorem moveWithScore_unmoved_unchanged (b : board) (d : string) :
  WF b ->
  fst (snd (moveWithScore b d)) = false ->
  forall r c, (r < dim b)%nat -> (c < dim b)%nat ->
  same_ref (get (grid (fst (moveWithScore b d))) r c) (get (grid b) r c) = true /\
  occupant (get (grid (fst (moveWithScore b d))) r c) = occupant (get (grid b) r c).
Proof.
  intros Hwf Hm r c Hr Hc.
  rewrite moveWithScore_axis in *.
  destruct (axis d) as [[vert rev]|]; cbn [fst snd grid] in *.
  - set (n := dim b) in *. set (g0 := clearMerged (grid b)) in *.
    destruct (linesWithScore_spec vert rev n g0 (shape_clearMerged _ _ Hwf))
      as (S1 & S2 & S3 & S4).
    rewrite S3 in Hm.
    rewrite (get_getAt vert). rewrite S2 by (destruct vert; assumption).
    set (k := if vert then c else r). set (j := if vert then r else c).
    rewrite resolvedLine_fixed with (n := n).
    + rewrite nth_readLine by (subst j; destruct vert; assumption).
      subst k j. rewrite <- get_getAt. subst g0. rewrite get_clearMerged.
      apply reset_cell.
    + apply readLine_length.
    + apply (existsb_false_in _ _ _ Hm). apply in_seq. subst k; destruct vert; lia.
  - rewrite get_clearMerged. apply reset_cell.
Qed.

Lemma moveWithScore_unmoved_unchanged_witness :
  WF (mkBoard 2 [[Some (newTile 1 2); None]; [Some (newTile 2 4); None]]) /\
  fst (snd (moveWithScore
    (mkBoard 2 [[Some (newTile 1 2); None]; [Some (newTile 2 4); None]]) "left"))
    = false /\
  (same_ref (get (grid (fst (moveWithScore
      (mkBoard 2 [[Some (newTile 1 2); None]; [Some (newTile 2 4); None]]) "left"))) 1 0)
     (get [[Some (newTile 1 2); None]; [Some (newTile 2 4); None]] 1 0) = true /\
   occupant (get (grid (fst (moveWithScore
      (mkBoard 2 [[Some (newTile 1 2); None]; [Some (newTile 2 4); None]]) "left"))) 1 0)
   = occupant (get [[Some (newTile 1 2); None]; [Some (newTile 2 4); None]] 1 0)).
Proof.
  assert (Hwf : WF (mkBoard 2 [[Some (newTile 1 2); None]; [Some (newTile 2 4); None]])).
  { split; [reflexivity|]. intros r Hr. cbv [dim size] in Hr.
    destruct r as [|[|r]]; [reflexivity|reflexivity|simpl in Hr; lia]. }
  assert (Hm : fst (snd (moveWithScore
    (mkBoard 2 [[Some (newTile 1 2); None]; [Some (newTile 2 4); None]]) "left"))
    = false) by reflexivity.
  split; [exact Hwf|]. split; [exact Hm|].
  exact (moveWithScore_unmoved_unchanged _ "left" Hwf Hm 1 0
           ltac:(cbv; lia) ltac:(cbv; lia)).
Defined.

(** C8: a direction other than ["up"], ["down"], ["left"] and ["right"] is a
    no-op: [moved = false], [score = 0], no error (the model is total), and
    every cell holds the same tile object with the same value (the move
    only resets the [merged] flags). *)
Theorem moveWithScore_unknown_direction (b : board) (d : string) :
  d <> "up"%string -> d <> "down"%string -> d <> "left"%string ->
  d <> "right"%string ->
  fst (snd (moveWithScore b d)) = false /\
  snd (snd (moveWithScore b d)) = 0 /\
  size (fst (moveWithScore b d)) = size b /\
  (forall r c,
     same_ref (get (grid (fst (moveWithScore b d))) r c) (get (grid b) r c) = true /\
     occupant (get (grid (fst (moveWithScore b d))) r c) = occupant (get (grid b) r c)).
Proof.
  intros Hu Hd Hl Hr.
  assert (Ha : axis d = None).
  { unfold axis.
    rewrite (proj2 (String.eqb_neq d "up") Hu), (proj2 (String.eqb_neq d "down") Hd),
      (proj2 (String.eqb_neq d "left") Hl), (proj2 (String.eqb_neq d "right") Hr).
    reflexivity. }
  rewrite moveWithScore_axis, Ha. cbn [fst snd grid size].
  split; [reflexivity|]. split; [reflexivity|]. split; [reflexivity|].
  intros r c. rewrite get_clearMerged. apply reset_cell.
Qed.

Lemma moveWithScore_unknown_direction_witness :
  fst (snd (moveWithScore (mkBoard 1 [[Some (newTile 1 2)]]) "diagonal")) = false /\
  snd (snd (moveWithScore (mkBoard 1 [[Some (newTile 1 2)]]) "diagonal")) = 0 /\
  size (fst (moveWithScore (mkBoard 1 [[Some (newTile 1 2)]]) "diagonal")) = 1 /\
  (forall r c,
     same_ref (get (grid (fst (moveWithScore (mkBoard 1 [[Some (newTile 1 2)]]) "diagonal"))) r c)
       (get [[Some (newTile 1 2)]] r c) = true /\
     occupant (get (grid (fst (moveWithScore (mkBoard 1 [[Some (newTile 1 2)]]) "diagonal"))) r c)
       = occupant (get [[Some (newTile 1 2)]] r c)).
Proof.
  apply moveWithScore_unknown_direction; discriminate.
Defined.

(** C10: [move] and [moveWithScore] agree on [moved] and on the resulting
    grid. *)
Theorem move_moveWithScore (b : board) (d : string) :
  move b d = (fst (moveWithScore b d), fst (snd (moveWithScore b d))).
Proof.
  unfold move, moveWithScore, lines, linesWithScore.
  destruct (String.eqb d "up"); [|destruct (String.eqb d "down");
    [|destruct (String.eqb d "left"); [|destruct (String.eqb d "right")]]];
  try reflexivity;
  rewrite (lines_proj _ _ _ _ _ _ 0);
  match goal with |- context [fold_left ?f ?ks ?st] =>
    destruct (fold_left f ks st) as [[g' m] s] end; reflexivity.
Qed.

(** C5: a move (without the spawn that follows it) never decreases the sum
    of the tile values on the board; in fact it keeps it, since a merge
    replaces two tiles of value [v] by one of value [2 v]. *)
Theorem moveWithScore_sum_le (b : board) (d : string) :
  WF b -> boardSum b <= boardSum (fst (moveWithScore b d)).
Proof.
  intros Hwf.
  assert (E : boardSum (fst (moveWithScore b d)) = boardSum b).
  { rewrite moveWithScore_axis.
    destruct (axis d) as [[vert rev]|]; cbn [fst].
    - set (g0 := clearMerged (grid b)).
      set (g' := fst (fst (linesWithScore vert rev (dim b) g0))).
      rewrite (boardSum_lines vert). unfold dim at 1 2. cbn [size grid].
      fold (dim b).
      rewrite <- boardSum_clearMerged, (boardSum_lines vert).
      unfold dim at 1 2. cbn [size grid]. fold (dim b). fold g0.
      apply f_equal, map_ext_in. intros k Hk. apply in_seq in Hk.
      subst g'. rewrite readLine_after.
      + apply resolvedLine_sum.
      + apply shape_clearMerged. exact Hwf.
      + unfold dim in *. cbn [size] in Hk. lia.
    - apply boardSum_clearMerged. }
  lia.
Qed.

Lemma moveWithScore_sum_le_witness :
  WF (mkBoard 2 [[Some (newTile 1 2); Some (newTile 2 2)]; [None; None]]) /\
  boardSum (mkBoard 2 [[Some (newTile 1 2); Some (newTile 2 2)]; [None; None]])
  <= boardSum (fst (moveWithScore
       (mkBoard 2 [[Some (newTile 1 2); Some (newTile 2 2)]; [None; None]]) "left")).
Proof.
  assert (Hwf : WF (mkBoard 2 [[Some (newTile 1 2); Some (newTile 2 2)]; [None; None]])).
  { split; [reflexivity|]. intros r Hr. vm_compute in Hr.
    destruct r as [|[|r]]; [reflexivity|reflexivity|lia]. }
  split; [exact Hwf|]. exact (moveWithScore_sum_le _ "left" Hwf).
Defined.

(** C2 (amended): after one move in direction [d], a second move in [d]
    with no spawn in between reports [moved = false] whenever no two tiles
    adjacent along the axis of [d] (consecutive rows of a column for [up]
    and [down], consecutive columns of a row for [left] and [right]) have
    equal values on the board left by the first move.  Every line is
    already compacted by the first move, so only such a pair can move. *)
Theorem moveWithScore_twice_unmoved (b : board) (d : string) :
  WF b ->
  (forall vert rev k j a a', axis d = Some (vert, rev) ->
     (k < dim b)%nat -> (S j < dim b)%nat ->
     getAt vert (grid (fst (moveWithScore b d))) k j = Some a ->
     getAt vert (grid (fst (moveWithScore b d))) k (S j) = Some a' ->
     value a <> value a') ->
  fst (snd (moveWithScore (fst (moveWithScore b d)) d)) = false.
Proof.
  intros Hwf Hd.
  destruct (axis d) as [[vert rev]|] eqn:Ha.
  2:{ rewrite (moveWithScore_axis (fst (moveWithScore b d))), Ha. reflexivity. }
  specialize (Hd vert rev).
  rewrite moveWithScore_axis, Ha in Hd. cbn [fst grid] in Hd.
  rewrite (moveWithScore_axis (fst (moveWithScore b d))), Ha.
  rewrite (moveWithScore_axis b d), Ha. cbn [fst snd grid size].
  set (n := dim b) in *.
  set (g0 := clearMerged (grid b)) in *.
  set (g1 := fst (fst (linesWithScore vert rev n g0))) in *.
  replace (dim (mkBoard (size b) g1)) with n by reflexivity.
  assert (Hs0 : shape n g0) by (apply shape_clearMerged; exact Hwf).
  destruct (linesWithScore_spec vert rev n g0 Hs0) as (S1 & S2 & _ & _).
  fold g1 in S1, S2.
  destruct (linesWithScore_spec vert rev n (clearMerged g1)
              (shape_clearMerged _ _ S1)) as (_ & _ & T3 & _).
  rewrite T3. apply existsb_all_false. intros k Hk. apply in_seq in Hk.
  apply lineMoved_fixed.
  set (L0 := readLine vert n g0 k).
  assert (HL1 : readLine vert n (clearMerged g1) k
                = map (option_map resetMerged) (resolvedLine rev L0)).
  { apply nth_ext with (d := None) (d' := None).
    - rewrite length_map, resolvedLine_length. subst L0.
      rewrite !readLine_length. reflexivity.
    - intros j Hj. rewrite readLine_length in Hj.
      rewrite nth_readLine, getAt_clearMerged, nth_map_reset by exact Hj.
      f_equal. apply S2; lia. }
  rewrite HL1. apply second_pass_fixed with (n := n).
  - subst L0. apply readLine_length.
  - intros j a a' Hj Ea Ea'.
    rewrite nth_map_reset in Ea, Ea'. subst L0.
    rewrite <- S2 in Ea, Ea' by lia.
    destruct (getAt vert g1 k j) as [t|] eqn:Et; [|discriminate].
    destruct (getAt vert g1 k (S j)) as [t'|] eqn:Et'; [|discriminate].
    cbn [option_map] in Ea, Ea'. injection Ea as <-. injection Ea' as <-.
    cbn [resetMerged setMerged value].
    apply (Hd k j t t' eq_refl); [lia | lia | exact Et | exact Et'].
Qed.

Lemma moveWithScore_twice_unmoved_witness :
  WF (mkBoard 2 [[Some (newTile 1 2); Some (newTile 2 4)]; [None; None]]) /\
  fst (snd (moveWithScore (fst (moveWithScore
    (mkBoard 2 [[Some (newTile 1 2); Some (newTile 2 4)]; [None; None]]) "left"))
    "left")) = false.
Proof.
  assert (Hwf : WF (mkBoard 2 [[Some (newTile 1 2); Some (newTile 2 4)]; [None; None]]))
    by solve_WF.
  split; [exact Hwf|].
  apply (moveWithScore_twice_unmoved _ "left" Hwf).
  intros vert rev k j a a' Hax Hk Hj Ea Ea'.
  vm_compute in Hax. injection Hax as <- <-.
  vm_compute in Hk, Hj.
  destruct j as [|j]; [|lia].
  destruct k as [|[|k]]; [| |lia]; vm_compute in Ea, Ea'.
  - injection Ea as <-. injection Ea' as <-. discriminate.
  - discriminate.
Defined.

(** C2, as stated, fails: moving [2 2 4 _] left gives [4 4 _ _], and a
    second move left merges the two 4s and reports [moved = true]. *)
Lemma moveWithScore_twice_moves :
  ~ (forall b d, WF b -> fst (snd (moveWithScore (fst (moveWithScore b d)) d)) = false).
Proof.
  intros H.
  assert (Hwf : WF (mkBoard 4
    [[Some (newTile 1 2); Some (newTile 2 2); Some (newTile 3 4); None];
     [None; None; None; None]; [None; None; None; None]; [None; None; None; None]]))
    by solve_WF.
  specialize (H _ "left"%string Hwf). vm_compute in H. discriminate.
Qed.

(** C3: [hasMoves] is true exactly when some cell is empty or two
    side-adjacent cells hold tiles of equal value; so it is false exactly
    when the grid is full and no two adjacent tiles are equal. *)
Theorem hasMoves_spec (b : board) :
  hasMoves b = true <->
  (exists r c, (r < dim b)%nat /\ (c < dim b)%nat /\ get (grid b) r c = None) \/
  (exists r c r' c' t t',
     (r < dim b)%nat /\ (c < dim b)%nat /\ (r' < dim b)%nat /\ (c' < dim b)%nat /\
     adjacent r c r' c' /\
     get (grid b) r c = Some t /\ get (grid b) r' c' = Some t' /\
     value t = value t').
Proof.
  unfold hasMoves. split.
  - intros H. apply existsb_exists in H as (r & Hr & H).
    apply existsb_exists in H as (c & Hc & H).
    apply in_seq in Hr. apply in_seq in Hc.
    destruct (get (grid b) r c) as [t|] eqn:Et.
    + right. apply existsb_exists in H as ([dr dc] & Ho & H).
      apply sameNeighbour_true in H as (r' & c' & t' & Hr' & Hc' & Er & Ec & Et' & Hv).
      exists r, c, r', c', t, t'.
      split; [lia|]. split; [lia|]. split; [exact Hr'|]. split; [exact Hc'|].
      split; [|split; [exact Et|split; [exact Et'|exact Hv]]].
      unfold adjacent. simpl in Ho.
      destruct Ho as [Ho|[Ho|[Ho|[Ho|[]]]]]; injection Ho as <- <-; lia.
    + left. exists r, c. split; [lia|]. split; [lia|]. exact Et.
  - intros [(r & c & Hr & Hc & E)|(r & c & r' & c' & t & t' & Hr & Hc & Hr' & Hc' & Hadj & Et & Et' & Hv)].
    + apply existsb_exists. exists r. split; [apply in_seq; lia|].
      apply existsb_exists. exists c. split; [apply in_seq; lia|].
      rewrite E. reflexivity.
    + apply existsb_exists. exists r. split; [apply in_seq; lia|].
      apply existsb_exists. exists c. split; [apply in_seq; lia|].
      rewrite Et. apply existsb_exists.
      assert (Hn : forall dr dc, Z.of_nat r + dr = Z.of_nat r' ->
                     Z.of_nat c + dc = Z.of_nat c' ->
                     sameNeighbour b t r c (dr, dc) = true).
      { intros dr dc E1 E2. apply sameNeighbour_at with (r' := r') (c' := c') (t' := t');
          assumption. }
      unfold adjacent in Hadj.
      destruct Hadj as [[-> [-> | ->]] | [-> [-> | ->]]].
      * exists (0, 1). split; [simpl; tauto|]. apply Hn; lia.
      * exists (0, -1). split; [simpl; tauto|]. apply Hn; lia.
      * exists (1, 0). split; [simpl; tauto|]. apply Hn; lia.
      * exists (-1, 0). split; [simpl; tauto|]. apply Hn; lia.
Qed.

(** C7: on a grid with no empty cell [addRandomTile] returns [false] and
    leaves the board as it was; on a well-formed grid with an empty cell,
    for a draw [idx] in [0, empty.length), it returns [true], keeps the
    size, and places a new tile of value 2 or 4 in a cell that was empty,
    every other cell unchanged. *)
Theorem addRandomTile_spec (b : board) (idx : nat) (coin : bool) (id : nat) :
  ((forall r c, (r < dim b)%nat -> (c < dim b)%nat -> get (grid b) r c <> None) ->
   addRandomTile b idx coin id = (false, b)) /\
  (WF b ->
   (exists r c, (r < dim b)%nat /\ (c < dim b)%nat /\ get (grid b) r c = None) ->
   (idx < length (getEmptyCells b))%nat ->
   fst (addRandomTile b idx coin id) = true /\
   size (snd (addRandomTile b idx coin id)) = size b /\
   exists r c t, (r < dim b)%nat /\ (c < dim b)%nat /\
     get (grid b) r c = None /\
     get (grid (snd (addRandomTile b idx coin id))) r c = Some t /\
     (value t = 2 \/ value t = 4) /\
     forall r' c', (r', c') <> (r, c) ->
       get (grid (snd (addRandomTile b idx coin id))) r' c' = get (grid b) r' c').
Proof.
  split.
  - intros Hfull. unfold addRandomTile. rewrite (getEmptyCells_full b Hfull).
    reflexivity.
  - intros [Hlen Hrows] _ Hidx. unfold addRandomTile. cbv zeta.
    destruct (getEmptyCells b) as [|p l] eqn:E; [simpl in Hidx; lia|].
    rewrite <- E.
    destruct (nth idx (getEmptyCells b) (0, 0)%nat) as [r c] eqn:N.
    assert (Hin : In (r, c) (getEmptyCells b))
      by (rewrite <- N; apply nth_In; rewrite E; exact Hidx).
    apply In_getEmptyCells in Hin as (Hr & Hc & G).
    cbn [fst snd size grid].
    split; [reflexivity|]. split; [reflexivity|].
    exists r, c, (newTile id (if coin then 2 else 4)).
    split; [exact Hr|]. split; [exact Hc|]. split; [exact G|].
    split; [apply get_set_eq; [lia|rewrite Hrows; lia]|].
    split; [destruct coin; [left|right]; reflexivity|].
    intros r' c' Hne. apply get_set_neq. intros E'. apply Hne. symmetry. exact E'.
Qed.

Lemma addRandomTile_spec_witness :
  WF (mkBoard 2 [[Some (newTile 1 2); None]; [Some (newTile 2 4); Some (newTile 3 8)]]) /\
  fst (addRandomTile
    (mkBoard 2 [[Some (newTile 1 2); None]; [Some (newTile 2 4); Some (newTile 3 8)]])
    0 true 4) = true /\
  addRandomTile
    (mkBoard 2 [[Some (newTile 1 2); Some (newTile 2 4)]; [Some (newTile 3 8); Some (newTile 4 2)]])
    0 true 5
  = (false,
     mkBoard 2 [[Some (newTile 1 2); Some (newTile 2 4)]; [Some (newTile 3 8); Some (newTile 4 2)]]).
Proof.
  assert (Hwf : WF (mkBoard 2 [[Some (newTile 1 2); None];
                               [Some (newTile 2 4); Some (newTile 3 8)]])) by solve_WF.
  split; [exact Hwf|]. split.
  - apply (addRandomTile_spec _ 0 true 4); [exact Hwf| |vm_compute; lia].
    exists 0%nat, 1%nat. split; [vm_compute; lia|]. split; [vm_compute; lia|].
    reflexivity.
  - apply (addRandomTile_spec _ 0 true 5).
    intros r c Hr Hc. vm_compute in Hr, Hc.
    destruct r as [|[|r]]; [| |lia]; (destruct c as [|[|c]]; [| |lia]);
      discriminate.
Defined.

(** C6 (amended): on a board of size less than 2 (fewer than two cells)
    [reset] leaves the grid with no tile; on a board of size at least 2,
    [reset] (for draws in range) yields a well-formed board of the same size
    with exactly two occupied cells, at distinct coordinates, both holding
    tiles of value 2; all other cells are empty. *)
Theorem reset_two_tiles (b : board) (idx1 idx2 id1 id2 : nat) :
  (size b < 2 ->
   exists b', reset b idx1 idx2 id1 id2 = Ok b' /\ size b' = size b /\
     forall r c, get (grid b') r c = None) /\
  (2 <= size b < 2 ^ 32 ->
  (idx1 < dim b * dim b)%nat -> (idx2 < dim b * dim b - 1)%nat ->
  exists b', reset b idx1 idx2 id1 id2 = Ok b' /\ size b' = size b /\ WF b' /\
    exists r1 c1 r2 c2, (r1, c1) <> (r2, c2) /\
      (r1 < dim b)%nat /\ (c1 < dim b)%nat /\ (r2 < dim b)%nat /\ (c2 < dim b)%nat /\
      (exists t1, get (grid b') r1 c1 = Some t1 /\ value t1 = 2) /\
      (exists t2, get (grid b') r2 c2 = Some t2 /\ value t2 = 2) /\
      forall r c, (r, c) <> (r1, c1) -> (r, c) <> (r2, c2) -> get (grid b') r c = None).
Proof.
  split.
  { intros Hs. unfold reset. cbv zeta.
    destruct (Z.le_gt_cases (size b) 0) as [H0|H0].
    - assert (E : createEmptyBoard (size b) = Ok []).
      { unfold createEmptyBoard.
        replace (size b <=? 0) with true by (symmetry; apply Z.leb_le; exact H0).
        reflexivity. }
      rewrite E.
      replace (getEmptyCells (mkBoard (size b) [])) with (@nil (nat * nat))
        by (unfold getEmptyCells, dim; cbn [size];
            replace (Z.to_nat (size b)) with 0%nat by lia; reflexivity).
      eexists. split; [reflexivity|]. split; [reflexivity|].
      intros r c. destruct r; destruct c; reflexivity.
    - rewrite createEmptyBoard_pos by lia.
      pose proof (getEmptyCells_empty_grid (size b)) as Hlen.
      replace (Nat.ltb (length (getEmptyCells
                 (mkBoard (size b) (repeat (repeat None (Z.to_nat (size b)))
                                      (Z.to_nat (size b)))))) 2) with true
        by (symmetry; apply Nat.ltb_lt; rewrite Hlen;
            replace (Z.to_nat (size b)) with 1%nat by lia; lia).
      eexists. split; [reflexivity|]. split; [reflexivity|].
      intros r c. apply get_empty_grid. }
  intros Hs H1 H2. unfold reset.
  rewrite createEmptyBoard_pos by lia.
  set (n := Z.to_nat (size b)).
  assert (Hdim : dim b = n) by reflexivity.
  rewrite Hdim in H1, H2 |- *.
  set (g0 := repeat (repeat None n) n).
  set (empty := getEmptyCells (mkBoard (size b) g0)).
  assert (Hlen : length empty = (n * n)%nat) by apply getEmptyCells_empty_grid.
  assert (Hn : (2 <= n)%nat) by lia.
  replace (Nat.ltb (length empty) 2) with false
    by (symmetry; apply Nat.ltb_ge; rewrite Hlen; nia).
  destruct (nth idx1 empty (0, 0)%nat) as [r1 c1] eqn:P1.
  destruct (nth idx2 (removeAt idx1 empty) (0, 0)%nat) as [r2 c2] eqn:P2.
  assert (Hin1 : In (r1, c1) empty) by (rewrite <- P1; apply nth_In; lia).
  destruct (removeAt_nth empty idx1 idx2 (0, 0)%nat (NoDup_getEmptyCells _)
              ltac:(lia) ltac:(lia)) as [Hin2 Hne].
  rewrite P1, P2 in Hne. rewrite P2 in Hin2.
  apply In_getEmptyCells in Hin1 as (Hr1 & Hc1 & _).
  apply In_getEmptyCells in Hin2 as (Hr2 & Hc2 & _).
  unfold dim in Hr1, Hc1, Hr2, Hc2. cbn [size] in Hr1, Hc1, Hr2, Hc2. fold n in Hr1, Hc1, Hr2, Hc2.
  assert (Hsh : shape n g0) by apply shape_empty_grid.
  assert (Hsh1 : shape n (set g0 r1 c1 (Some (newTile id1 2)))) by (apply shape_set; exact Hsh).
  eexists. split; [reflexivity|]. cbn [size grid].
  split; [reflexivity|].
  split; [unfold WF, dim; cbn [size grid]; fold n; apply shape_set; exact Hsh1|].
  exists r1, c1, r2, c2.
  split; [intros E; apply Hne; symmetry; exact E|].
  split; [exact Hr1|]. split; [exact Hc1|]. split; [exact Hr2|]. split; [exact Hc2|].
  destruct Hsh as [Hl0 Hrow0]. destruct Hsh1 as [Hl1 Hrow1].
  split.
  - exists (newTile id1 2). split; [|reflexivity].
    rewrite get_set_neq by exact Hne.
    apply get_set_eq; [lia|rewrite Hrow0; lia].
  - split.
    + exists (newTile id2 2). split; [|reflexivity].
      apply get_set_eq; [lia|rewrite Hrow1; lia].
    + intros r c Ha Hb.
      rewrite get_set_neq by (intros E; apply Hb; symmetry; exact E).
      rewrite get_set_neq by (intros E; apply Ha; symmetry; exact E).
      apply get_empty_grid.
Qed.

Lemma reset_two_tiles_witness :
  (1 < 2 /\
   exists b', reset (mkBoard 1 []) 0 0 1 2 = Ok b' /\ size b' = 1 /\
     forall r c, get (grid b') r c = None) /\
  (2 <= size (mkBoard 2 []) < 2 ^ 32 /\
  exists b', reset (mkBoard 2 []) 3 0 1 2 = Ok b' /\ size b' = 2 /\ WF b' /\
    exists r1 c1 r2 c2, (r1, c1) <> (r2, c2) /\
      (r1 < 2)%nat /\ (c1 < 2)%nat /\ (r2 < 2)%nat /\ (c2 < 2)%nat /\
      (exists t1, get (grid b') r1 c1 = Some t1 /\ value t1 = 2) /\
      (exists t2, get (grid b') r2 c2 = Some t2 /\ value t2 = 2) /\
      forall r c, (r, c) <> (r1, c1) -> (r, c) <> (r2, c2) -> get (grid b') r c = None).
Proof.
  split.
  - split; [lia|].
    apply (proj1 (reset_two_tiles (mkBoard 1 []) 0 0 1 2)). cbn. lia.
  - split; [cbn; lia|].
    apply (proj2 (reset_two_tiles (mkBoard 2 []) 3 0 1 2)); unfold dim; cbn; lia.
Defined.

(** C6, as stated, fails: on a board of size 1 there is a single empty
    cell, [reset] returns early and the board has no tile at all. *)
Lemma reset_size_one_no_tiles :
  ~ (forall b idx1 idx2 id1 id2, exists b', reset b idx1 idx2 id1 id2 = Ok b' /\
       exists r1 c1 r2 c2, (r1, c1) <> (r2, c2) /\
         isTile (get (grid b') r1 c1) = true /\ isTile (get (grid b') r2 c2) = true).
Proof.
  intros H. destruct (H (mkBoard 1 []) 0%nat 0%nat 1%nat 2%nat)
    as (b' & E & r1 & c1 & r2 & c2 & _ & H1 & _).
  vm_compute in E. injection E as <-. cbn [grid] in H1.
  destruct r1 as [|[|r1]]; (destruct c1 as [|[|c1]]); discriminate.
Qed.

(** C9 (amended): the constructor performs no check on [size]; with a
    non-positive size it raises no error and yields a board whose grid has
    no cell. *)
Theorem Board_new_nonpositive (s : Z) :
  s <= 0 -> Board_new s = Ok (mkBoard s []).
Proof.
  intros Hs. unfold Board_new, createEmptyBoard.
  replace (s <=? 0) with true by (symmetry; apply Z.leb_le; exact Hs).
  reflexivity.
Qed.

Lemma Board_new_nonpositive_witness :
  0 <= 0 /\ Board_new 0 = Ok (mkBoard 0 []).
Proof.
  split; [lia|]. apply Board_new_nonpositive. lia.
Defined.

(** C9, as stated, fails: [new Board(0)] does not fail. *)
Lemma Board_new_zero_succeeds :
  ~ (forall s, s <= 0 -> exists e, Board_new s = Err e).
Proof.
  intros H. destruct (H 0 ltac:(lia)) as [e E]. discriminate E.
Qed.

(** * Further properties of the code *)

Import MoveAccounting MoveFixedPoints BoardUpdates GameFacts.

(** [slideAndMerge] returns a line of the length of its input, its tiles
    first and its nulls after, with no more tiles than the input had and
    the same sum of tile values. *)
Theorem slideAndMerge_compacts (line : list (option tile)) :
  exists m k, fst (slideAndMerge line) = map Some m ++ repeat None k /\
    length (fst (slideAndMerge line)) = length line /\
    (length m <= length (somes line))%nat /\
    zsum (map cellValue (fst (slideAndMerge line))) = zsum (map cellValue line).
Proof.
  exists (fst (mergeTiles (somes line))),
    (length line - length (fst (mergeTiles (somes line))))%nat.
  split; [rewrite slideAndMerge_spec; reflexivity|].
  split; [apply slideAndMerge_length|].
  split; [apply mergeTiles_length_le|].
  exact (resolvedLine_sum false line).
Qed.

(** [moveWithScore] keeps the size of the board and its [size] by [size]
    grid. *)
Theorem moveWithScore_keeps_WF (b : board) (d : string) :
  WF b -> WF (fst (moveWithScore b d)) /\ size (fst (moveWithScore b d)) = size b.
Proof. apply moveWithScore_WF_size. Qed.

Lemma moveWithScore_keeps_WF_witness :
  WF (mkBoard 2 [[Some (newTile 1 2); None]; [None; None]]) /\
  (WF (fst (moveWithScore (mkBoard 2 [[Some (newTile 1 2); None]; [None; None]]) "right"))
   /\ size (fst (moveWithScore (mkBoard 2 [[Some (newTile 1 2); None]; [None; None]]) "right"))
      = size (mkBoard 2 [[Some (newTile 1 2); None]; [None; None]])).
Proof.
  split; [solve_WF|]. apply moveWithScore_keeps_WF. solve_WF.
Defined.

(** The score of the game computed by [Game.updateScore] is the same
    before and after [moveWithScore]: a move adds no value to the board
    and removes none. *)
Theorem moveWithScore_keeps_updateScore (b : board) (d : string) :
  WF b -> updateScore (fst (moveWithScore b d)) = updateScore b.
Proof. apply moveWithScore_updateScore. Qed.

Lemma moveWithScore_keeps_updateScore_witness :
  WF (mkBoard 2 [[Some (newTile 1 2); Some (newTile 2 2)]; [None; None]]) /\
  updateScore (fst (moveWithScore
    (mkBoard 2 [[Some (newTile 1 2); Some (newTile 2 2)]; [None; None]]) "left"))
  = updateScore (mkBoard 2 [[Some (newTile 1 2); Some (newTile 2 2)]; [None; None]]).
Proof.
  split; [solve_WF|]. apply moveWithScore_keeps_updateScore. solve_WF.
Defined.

(** The score of a move is the sum of the values of the tiles it flags as
    merged, and each merge removes one tile: the number of tiles before
    the move is the number after plus the number of merged tiles. *)
Theorem moveWithScore_score_merged (b : board) (d : string) :
  WF b ->
  snd (snd (moveWithScore b d))
  = gridSum mergedValue (dim b) (grid (fst (moveWithScore b d))) /\
  gridSum tileCount (dim b) (grid b)
  = gridSum tileCount (dim b) (grid (fst (moveWithScore b d)))
    + gridSum mergedCount (dim b) (grid (fst (moveWithScore b d))).
Proof.
  intros Hwf.
  assert (Hc : gridSum tileCount (dim b) (grid b)
               = gridSum tileCount (dim b) (clearMerged (grid b))).
  { apply gridSum_ext. intros r c _ _. rewrite get_clearMerged.
    symmetry. exact (proj1 (proj2 (proj2 (cell_reset_weights _)))). }
  rewrite Hc. rewrite moveWithScore_axis.
  destruct (axis d) as [[vert rev]|]; cbn [fst snd grid].
  - destruct (linesWithScore_spec vert rev (dim b) (clearMerged (grid b))
                (shape_clearMerged _ _ Hwf)) as (_ & _ & _ & S4).
    split.
    + rewrite S4, (gridSum_lines _ vert). apply f_equal, map_ext_in.
      intros k Hk. apply in_seq in Hk.
      rewrite readLine_after; [| apply shape_clearMerged; exact Hwf | lia].
      apply resolvedLine_accounting, readLine_unmerged.
    + rewrite <- gridSum_add, !(gridSum_lines _ vert). apply f_equal, map_ext_in.
      intros k Hk. apply in_seq in Hk.
      rewrite readLine_after; [| apply shape_clearMerged; exact Hwf | lia].
      rewrite zsum_map_add. apply resolvedLine_accounting, readLine_unmerged.
  - assert (Hz : gridSum mergedValue (dim b) (clearMerged (grid b)) = 0 /\
                 gridSum mergedCount (dim b) (clearMerged (grid b)) = 0).
    { split; apply gridSum_zero; intros r c _ _; rewrite get_clearMerged;
        apply cell_reset_weights. }
    destruct Hz as [Hz1 Hz2]. rewrite Hz1, Hz2. split; [reflexivity|lia].
Qed.

Lemma moveWithScore_score_merged_witness :
  WF (mkBoard 2 [[Some (newTile 1 2); Some (newTile 2 2)]; [None; None]]) /\
  snd (snd (moveWithScore
    (mkBoard 2 [[Some (newTile 1 2); Some (newTile 2 2)]; [None; None]]) "right"))
  = gridSum mergedValue 2 (grid (fst (moveWithScore
    (mkBoard 2 [[Some (newTile 1 2); Some (newTile 2 2)]; [None; None]]) "right"))) /\
  gridSum tileCount 2 [[Some (newTile 1 2); Some (newTile 2 2)]; [None; None]]
  = gridSum tileCount 2 (grid (fst (moveWithScore
      (mkBoard 2 [[Some (newTile 1 2); Some (newTile 2 2)]; [None; None]]) "right")))
    + gridSum mergedCount 2 (grid (fst (moveWithScore
      (mkBoard 2 [[Some (newTile 1 2); Some (newTile 2 2)]; [None; None]]) "right"))).
Proof.
  split; [solve_WF|].
  exact (moveWithScore_score_merged
           (mkBoard 2 [[Some (newTile 1 2); Some (newTile 2 2)]; [None; None]]) "right"
           ltac:(solve_WF)).
Defined.

(** A move that moves nothing scores nothing. *)
Theorem moveWithScore_unmoved_no_score (b : board) (d : string) :
  WF b -> fst (snd (moveWithScore b d)) = false -> snd (snd (moveWithScore b d)) = 0.
Proof. apply unmoved_score_zero. Qed.

Lemma moveWithScore_unmoved_no_score_witness :
  WF (mkBoard 2 [[Some (newTile 1 2); None]; [None; None]]) /\
  fst (snd (moveWithScore (mkBoard 2 [[Some (newTile 1 2); None]; [None; None]]) "left"))
  = false /\
  snd (snd (moveWithScore (mkBoard 2 [[Some (newTile 1 2); None]; [None; None]]) "left"))
  = 0.
Proof.
  assert (Hwf : WF (mkBoard 2 [[Some (newTile 1 2); None]; [None; None]])) by solve_WF.
  split; [exact Hwf|]. split; [reflexivity|].
  apply moveWithScore_unmoved_no_score; [exact Hwf|reflexivity].
Defined.

(** When [hasMoves] is false, no direction moves a tile or scores. *)
Theorem moveWithScore_when_stuck (b : board) (d : string) :
  WF b -> hasMoves b = false ->
  fst (snd (moveWithScore b d)) = false /\ snd (snd (moveWithScore b d)) = 0.
Proof. apply stuck_unmoved. Qed.

Lemma moveWithScore_when_stuck_witness :
  WF (mkBoard 2 [[Some (newTile 1 2); Some (newTile 2 4)];
                 [Some (newTile 3 4); Some (newTile 4 2)]]) /\
  hasMoves (mkBoard 2 [[Some (newTile 1 2); Some (newTile 2 4)];
                       [Some (newTile 3 4); Some (newTile 4 2)]]) = false /\
  fst (snd (moveWithScore (mkBoard 2 [[Some (newTile 1 2); Some (newTile 2 4)];
                                      [Some (newTile 3 4); Some (newTile 4 2)]]) "up"))
  = false /\
  snd (snd (moveWithScore (mkBoard 2 [[Some (newTile 1 2); Some (newTile 2 4)];
                                      [Some (newTile 3 4); Some (newTile 4 2)]]) "up"))
  = 0.
Proof.
  assert (Hwf : WF (mkBoard 2 [[Some (newTile 1 2); Some (newTile 2 4)];
                               [Some (newTile 3 4); Some (newTile 4 2)]])) by solve_WF.
  split; [exact Hwf|]. split; [reflexivity|].
  apply moveWithScore_when_stuck; [exact Hwf|reflexivity].
Defined.

(** A move that moves a tile leaves an empty cell on the board, so
    [hasMoves] holds right after it. *)
Theorem moveWithScore_moved_has_moves (b : board) (d : string) :
  WF b -> fst (snd (moveWithScore b d)) = true ->
  (exists r c, (r < dim b)%nat /\ (c < dim b)%nat /\
     get (grid (fst (moveWithScore b d))) r c = None) /\
  hasMoves (fst (moveWithScore b d)) = true.
Proof.
  intros Hwf Hm. split; [exact (moved_leaves_empty b d Hwf Hm)|].
  exact (moved_hasMoves b d Hwf Hm).
Qed.

Lemma moveWithScore_moved_has_moves_witness :
  WF (mkBoard 2 [[Some (newTile 1 2); Some (newTile 2 2)];
                 [Some (newTile 3 4); Some (newTile 4 8)]]) /\
  fst (snd (moveWithScore (mkBoard 2 [[Some (newTile 1 2); Some (newTile 2 2)];
                                      [Some (newTile 3 4); Some (newTile 4 8)]]) "left"))
  = true /\
  ((exists r c, (r < 2)%nat /\ (c < 2)%nat /\
     get (grid (fst (moveWithScore (mkBoard 2 [[Some (newTile 1 2); Some (newTile 2 2)];
                                   [Some (newTile 3 4); Some (newTile 4 8)]]) "left"))) r c
     = None) /\
   hasMoves (fst (moveWithScore (mkBoard 2 [[Some (newTile 1 2); Some (newTile 2 2)];
                                  [Some (newTile 3 4); Some (newTile 4 8)]]) "left")) = true).
Proof.
  assert (Hwf : WF (mkBoard 2 [[Some (newTile 1 2); Some (newTile 2 2)];
                               [Some (newTile 3 4); Some (newTile 4 8)]])) by solve_WF.
  split; [exact Hwf|]. split; [reflexivity|].
  exact (moveWithScore_moved_has_moves _ "left" Hwf eq_refl).
Defined.

(** [getEmptyCells] lists each empty cell of the board once and nothing
    else; their number is [size * size] less the number of tiles. *)
Theorem getEmptyCells_exact (b : board) :
  (forall r c, In (r, c) (getEmptyCells b) <->
     (r < dim b)%nat /\ (c < dim b)%nat /\ get (grid b) r c = None) /\
  NoDup (getEmptyCells b) /\
  Z.of_nat (length (getEmptyCells b))
  = Z.of_nat (dim b * dim b) - gridSum tileCount (dim b) (grid b).
Proof.
  split; [intros r c; apply In_getEmptyCells|].
  split; [apply NoDup_getEmptyCells|].
  pose proof (getEmptyCells_count b). lia.
Qed.

(** For a size in [1, 2^32), [new Board(size)] builds a [size] by [size]
    grid with no tile, whose [size * size] cells are all empty. *)
Theorem Board_new_positive (s : Z) :
  0 < s < 2 ^ 32 ->
  exists b, Board_new s = Ok b /\ size b = s /\ WF b /\
    (forall r c, get (grid b) r c = None) /\
    length (getEmptyCells b) = (Z.to_nat s * Z.to_nat s)%nat.
Proof.
  intros Hs. exists (mkBoard s (repeat (repeat None (Z.to_nat s)) (Z.to_nat s))).
  unfold Board_new. rewrite createEmptyBoard_pos by exact Hs.
  split; [reflexivity|]. split; [reflexivity|].
  split; [unfold WF, dim; cbn [size grid]; apply shape_empty_grid|].
  split; [intros r c; apply get_empty_grid|].
  apply getEmptyCells_empty_grid.
Qed.

Lemma Board_new_positive_witness :
  0 < 4 < 2 ^ 32 /\
  exists b, Board_new 4 = Ok b /\ size b = 4 /\ WF b /\
    (forall r c, get (grid b) r c = None) /\
    length (getEmptyCells b) = (Z.to_nat 4 * Z.to_nat 4)%nat.
Proof.
  split; [lia|]. apply Board_new_positive. lia.
Defined.

(** On a well-formed board, for a draw in range, [addRandomTile] keeps the
    grid well-formed, takes exactly one cell off the empty cells, and
    raises the sum computed by [Game.updateScore] by the value of the new
    tile, 2 or 4. *)
Theorem addRandomTile_counts (b : board) (idx : nat) (coin : bool) (id : nat) :
  WF b -> (idx < length (getEmptyCells b))%nat ->
  WF (snd (addRandomTile b idx coin id)) /\
  length (getEmptyCells b) = S (length (getEmptyCells (snd (addRandomTile b idx coin id)))) /\
  updateScore (snd (addRandomTile b idx coin id)) = updateScore b + (if coin then 2 else 4).
Proof. apply addRandomTile_effects. Qed.

Lemma addRandomTile_counts_witness :
  WF (mkBoard 2 [[Some (newTile 1 2); None]; [None; None]]) /\
  (2 < length (getEmptyCells (mkBoard 2 [[Some (newTile 1 2); None]; [None; None]])))%nat /\
  (WF (snd (addRandomTile (mkBoard 2 [[Some (newTile 1 2); None]; [None; None]]) 2 false 7)) /\
   length (getEmptyCells (mkBoard 2 [[Some (newTile 1 2); None]; [None; None]]))
   = S (length (getEmptyCells (snd (addRandomTile
       (mkBoard 2 [[Some (newTile 1 2); None]; [None; None]]) 2 false 7)))) /\
   updateScore (snd (addRandomTile (mkBoard 2 [[Some (newTile 1 2); None]; [None; None]])
                  2 false 7))
   = updateScore (mkBoard 2 [[Some (newTile 1 2); None]; [None; None]]) + 4).
Proof.
  assert (Hwf : WF (mkBoard 2 [[Some (newTile 1 2); None]; [None; None]])) by solve_WF.
  split; [exact Hwf|]. split; [vm_compute; lia|].
  exact (addRandomTile_counts _ 2 false 7 Hwf ltac:(vm_compute; lia)).
Defined.

(** Once the game is won, [Game.move] keeps it won and never schedules the
    win message again; when it schedules it, the game was not won before,
    is won after, and the board holds a tile of value 2048 or more. *)
Theorem Game_move_win (g : game) (d : string) (now : Z) (idx : nat) (coin : bool)
  (id : nat) :
  (hasWon g = true ->
   hasWon (fst (Game_move g d now idx coin id)) = true /\
   ~ In ShowWin (snd (Game_move g d now idx coin id))) /\
  (In ShowWin (snd (Game_move g d now idx coin id)) ->
   hasWon g = false /\ hasWon (fst (Game_move g d now idx coin id)) = true /\
   exists r c t, (r < dim (gboard (fst (Game_move g d now idx coin id))))%nat /\
     (c < dim (gboard (fst (Game_move g d now idx coin id))))%nat /\
     get (grid (gboard (fst (Game_move g d now idx coin id)))) r c = Some t /\
     2048 <= value t).
Proof.
  destruct (moveWithScore (gboard g) d) as [b1 [moved sc]] eqn:E.
  destruct (Game_move_cases g d now idx coin id b1 moved sc E)
    as (g2 & t1 & G1 & G2 & G3 & G4 & G5).
  rewrite G5. destruct moved; cbn [fst snd hasWon].
  - destruct (checkWinCondition_fields g2) as (F1 & F2 & F3 & F4 & F5).
    assert (Ht1 : ~ In ShowWin t1)
      by (destruct G4 as [(_ & _ & ->)|(_ & _ & ->)]; intros [H|[]]; discriminate).
    assert (Ht3 : ~ In ShowWin (if hasMoves (gboard g2) then [] else [ShowGameOver]))
      by (destruct (hasMoves (gboard g2)); [intros []|intros [H|[]]; discriminate]).
    split.
    + intros Hw. rewrite F4, G2, Hw. split; [reflexivity|].
      rewrite !in_app_iff. intros [H|[H|H]]; [exact (Ht1 H)| |exact (Ht3 H)].
      destruct F5 as [F5|(_ & F5 & _)]; [rewrite F5 in H; destruct H|congruence].
    + rewrite !in_app_iff. intros [H|[H|H]]; [contradiction (Ht1 H)| |contradiction (Ht3 H)].
      destruct F5 as [F5|(_ & Hw & Ht)]; [rewrite F5 in H; destruct H|].
      split; [rewrite <- G2; exact Hw|].
      split; [rewrite F4, Ht, orb_true_r; reflexivity|].
      rewrite F2. apply hasTile2048_spec. exact Ht.
  - split; [intros Hw; split; [exact Hw|intros [H|[]]; discriminate]|].
    intros [H|[]]; discriminate.
Qed.

(** On a move that is not a rapid input (at least 150 ms after the last
    one), [Game.move] checks [hasMoves] before the new tile is added, on a
    board that has just moved and so has an empty cell: the game-over
    message is never scheduled there. *)
Theorem Game_move_normal_no_gameover (g : game) (d : string) (now : Z) (idx : nat)
  (coin : bool) (id : nat) :
  WF (gboard g) -> 150 <= now - lastMoveTime g ->
  ~ In ShowGameOver (snd (Game_move g d now idx coin id)).
Proof.
  intros Hwf Ht.
  pose proof (moved_hasMoves (gboard g) d Hwf) as HM.
  destruct (moveWithScore (gboard g) d) as [b1 [moved sc]] eqn:E.
  cbn [fst snd] in HM.
  destruct (Game_move_cases g d now idx coin id b1 moved sc E)
    as (g2 & t1 & G1 & G2 & G3 & G4 & G5).
  rewrite G5. destruct moved; cbn [snd]; [|intros [H|[]]; discriminate].
  destruct G4 as [(_ & Gb & ->)|(Hlt & _ & _)]; [|lia].
  rewrite Gb, (HM eq_refl).
  destruct (checkWinCondition_fields g2) as (_ & _ & _ & _ & F5).
  rewrite !in_app_iff. intros [[H|[]]|[H|[]]]; [discriminate| ].
  destruct F5 as [F5|(F5 & _ & _)]; rewrite F5 in H; [destruct H|].
  destruct H as [H|[]]. discriminate.
Qed.

Lemma Game_move_normal_no_gameover_witness :
  WF (mkBoard 2 [[Some (newTile 1 2); None]; [None; None]]) /\
  150 <= 1000 - 0 /\
  ~ In ShowGameOver (snd (Game_move
      (mkGame 0 (mkBoard 2 [[Some (newTile 1 2); None]; [None; None]]) false 0)
      "right" 1000 0 true 9)).
Proof.
  assert (Hwf : WF (mkBoard 2 [[Some (newTile 1 2); None]; [None; None]])) by solve_WF.
  split; [exact Hwf|]. split; [lia|].
  exact (Game_move_normal_no_gameover
           (mkGame 0 (mkBoard 2 [[Some (newTile 1 2); None]; [None; None]]) false 0)
           "right" 1000 0 true 9 Hwf ltac:(cbn; lia)).
Defined.

(** [Game.move] adds the score of the move to the game's score, which so
    never decreases on a board of tiles with values that are not
    negative; [lastMoveTime] becomes [now] exactly when a tile moved. *)
Theorem Game_move_score (g : game) (d : string) (now : Z) (idx : nat) (coin : bool)
  (id : nat) :
  WF (gboard g) ->
  (forall r c t, get (grid (gboard g)) r c = Some t -> 0 <= value t) ->
  score (fst (Game_move g d now idx coin id))
  = score g + snd (snd (moveWithScore (gboard g) d)) /\
  score g <= score (fst (Game_move g d now idx coin id)) /\
  lastMoveTime (fst (Game_move g d now idx coin id))
  = (if fst (snd (moveWithScore (gboard g) d)) then now else lastMoveTime g).
Proof.
  intros Hwf Hv.
  pose proof (moveWithScore_score_nonneg (gboard g) d Hwf Hv) as Hn.
  pose proof (unmoved_score_zero (gboard g) d Hwf) as Hu.
  destruct (moveWithScore (gboard g) d) as [b1 [moved sc]] eqn:E.
  cbn [fst snd] in Hn, Hu |- *.
  destruct (Game_move_cases g d now idx coin id b1 moved sc E)
    as (g2 & t1 & G1 & G2 & G3 & G4 & G5).
  rewrite G5. destruct moved; cbn [fst score lastMoveTime].
  - destruct (checkWinCondition_fields g2) as (F1 & _ & F3 & _ & _).
    rewrite F1, F3, G1, G3. split; [reflexivity|]. split; [lia|reflexivity].
  - rewrite (Hu eq_refl). split; [lia|]. split; [lia|reflexivity].
Qed.

Lemma Game_move_score_witness :
  WF (mkBoard 2 [[Some (newTile 1 2); Some (newTile 2 2)]; [None; None]]) /\
  (forall r c t, get (grid (mkBoard 2 [[Some (newTile 1 2); Some (newTile 2 2)];
                                       [None; None]])) r c = Some t -> 0 <= value t) /\
  (score (fst (Game_move
     (mkGame 10 (mkBoard 2 [[Some (newTile 1 2); Some (newTile 2 2)]; [None; None]]) false 0)
     "left" 1000 0 true 9))
   = 10 + snd (snd (moveWithScore
       (mkBoard 2 [[Some (newTile 1 2); Some (newTile 2 2)]; [None; None]]) "left")) /\
   10 <= score (fst (Game_move
     (mkGame 10 (mkBoard 2 [[Some (newTile 1 2); Some (newTile 2 2)]; [None; None]]) false 0)
     "left" 1000 0 true 9)) /\
   lastMoveTime (fst (Game_move
     (mkGame 10 (mkBoard 2 [[Some (newTile 1 2); Some (newTile 2 2)]; [None; None]]) false 0)
     "left" 1000 0 true 9))
   = (if fst (snd (moveWithScore
       (mkBoard 2 [[Some (newTile 1 2); Some (newTile 2 2)]; [None; None]]) "left"))
      then 1000 else 0)).
Proof.
  assert (Hwf : WF (mkBoard 2 [[Some (newTile 1 2); Some (newTile 2 2)]; [None; None]]))
    by solve_WF.
  assert (Hv : forall r c t, get (grid (mkBoard 2 [[Some (newTile 1 2); Some (newTile 2 2)];
                                                   [None; None]])) r c = Some t ->
                             0 <= value t).
  { intros r c t G. unfold get in G. destruct r as [|[|r]].
    - destruct c as [|[|c]]; cbn in G; [..|destruct c; discriminate G];
        injection G as <-; cbn; lia.
    - destruct c as [|[|c]]; cbn in G; [..|destruct c]; discriminate G.
    - cbn in G. destruct r; destruct c; cbn in G; discriminate G. }
  split; [exact Hwf|]. split; [exact Hv|].
  exact (Game_move_score
           (mkGame 10 (mkBoard 2 [[Some (newTile 1 2); Some (newTile 2 2)]; [None; None]])
              false 0) "left" 1000 0 true 9 Hwf Hv).
Defined.

(** The sum of the tile values after [Game.move]: on a rapid input that
    moved, the new tile is added at once and the sum grows by its value, 2
    or 4; otherwise the move leaves the sum as it was (the spawn of a
    normal input comes later, from its timer). *)
Theorem Game_move_tile_sum (g : game) (d : string) (now : Z) (idx : nat) (coin : bool)
  (id : nat) :
  WF (gboard g) ->
  (fst (snd (moveWithScore (gboard g) d)) = true -> now - lastMoveTime g < 150 ->
   (idx < length (getEmptyCells (fst (moveWithScore (gboard g) d))))%nat) ->
  updateScore (gboard (fst (Game_move g d now idx coin id)))
  = updateScore (gboard g)
    + (if fst (snd (moveWithScore (gboard g) d)) && (now - lastMoveTime g <? 150)
       then (if coin then 2 else 4) else 0).
Proof.
  intros Hwf Hidx.
  pose proof (moveWithScore_updateScore (gboard g) d Hwf) as Hu.
  pose proof (proj1 (moveWithScore_WF_size (gboard g) d Hwf)) as Hw1.
  destruct (moveWithScore (gboard g) d) as [b1 [moved sc]] eqn:E.
  cbn [fst snd] in Hu, Hw1, Hidx |- *.
  destruct (Game_move_cases g d now idx coin id b1 moved sc E)
    as (g2 & t1 & G1 & G2 & G3 & G4 & G5).
  rewrite G5. destruct moved; cbn [fst gboard andb].
  - destruct (checkWinCondition_fields g2) as (_ & F2 & _ & _ & _). rewrite F2.
    destruct G4 as [(Hge & Gb & _)|(Hlt & Gb & _)]; rewrite Gb.
    + replace (now - lastMoveTime g <? 150) with false
        by (symmetry; apply Z.ltb_ge; exact Hge). lia.
    + replace (now - lastMoveTime g <? 150) with true
        by (symmetry; apply Z.ltb_lt; exact Hlt).
      destruct (addRandomTile_effects b1 idx coin id Hw1 (Hidx eq_refl Hlt))
        as (_ & _ & A3).
      rewrite A3, Hu. reflexivity.
  - lia.
Qed.

Lemma Game_move_tile_sum_witness :
  WF (mkBoard 2 [[Some (newTile 1 2); None]; [None; None]]) /\
  (fst (snd (moveWithScore (mkBoard 2 [[Some (newTile 1 2); None]; [None; None]]) "right"))
   = true -> 100 - 0 < 150 ->
   (0 < length (getEmptyCells (fst (moveWithScore
         (mkBoard 2 [[Some (newTile 1 2); None]; [None; None]]) "right"))))%nat) /\
  updateScore (gboard (fst (Game_move
    (mkGame 0 (mkBoard 2 [[Some (newTile 1 2); None]; [None; None]]) false 0)
    "right" 100 0 true 9)))
  = updateScore (mkBoard 2 [[Some (newTile 1 2); None]; [None; None]])
    + (if fst (snd (moveWithScore
            (mkBoard 2 [[Some (newTile 1 2); None]; [None; None]]) "right"))
          && (100 - 0 <? 150)
       then 2 else 0).
Proof.
  assert (Hwf : WF (mkBoard 2 [[Some (newTile 1 2); None]; [None; None]])) by solve_WF.
  assert (Hidx : fst (snd (moveWithScore
                   (mkBoard 2 [[Some (newTile 1 2); None]; [None; None]]) "right"))
                 = true -> 100 - 0 < 150 ->
                 (0 < length (getEmptyCells (fst (moveWithScore
                   (mkBoard 2 [[Some (newTile 1 2); None]; [None; None]]) "right"))))%nat)
    by (intros _ _; vm_compute; lia).
  split; [exact Hwf|]. split; [exact Hidx|].
  exact (Game_move_tile_sum
           (mkGame 0 (mkBoard 2 [[Some (newTile 1 2); None]; [None; None]]) false 0)
           "right" 100 0 true 9 Hwf Hidx).
Defined.

(** On a board where [hasMoves] is false, [Game.move] keeps the score, the
    win flag and [lastMoveTime], and only schedules the end of the stuck
    animation. *)
Theorem Game_move_stuck (g : game) (d : string) (now : Z) (idx : nat) (coin : bool)
  (id : nat) :
  WF (gboard g) -> hasMoves (gboard g) = false ->
  Game_move g d now idx coin id
  = (mkGame (score g) (fst (moveWithScore (gboard g) d)) (hasWon g) (lastMoveTime g),
     [ClearFilter]).
Proof.
  intros Hwf Hs.
  pose proof (proj1 (stuck_unmoved (gboard g) d Hwf Hs)) as Hm.
  destruct (moveWithScore (gboard g) d) as [b1 [moved sc]] eqn:E.
  cbn [fst snd] in Hm |- *. subst moved.
  destruct (Game_move_cases g d now idx coin id b1 false sc E)
    as (g2 & t1 & G1 & G2 & G3 & G4 & G5).
  exact G5.
Qed.

Lemma Game_move_stuck_witness :
  WF (mkBoard 2 [[Some (newTile 1 2); Some (newTile 2 4)];
                 [Some (newTile 3 4); Some (newTile 4 2)]]) /\
  hasMoves (mkBoard 2 [[Some (newTile 1 2); Some (newTile 2 4)];
                       [Some (newTile 3 4); Some (newTile 4 2)]]) = false /\
  Game_move (mkGame 12 (mkBoard 2 [[Some (newTile 1 2); Some (newTile 2 4)];
                                   [Some (newTile 3 4); Some (newTile 4 2)]]) false 5)
    "down" 900 0 true 9
  = (mkGame 12 (fst (moveWithScore (mkBoard 2 [[Some (newTile 1 2); Some (newTile 2 4)];
                                   [Some (newTile 3 4); Some (newTile 4 2)]]) "down"))
       false 5, [ClearFilter]).
Proof.
  assert (Hwf : WF (mkBoard 2 [[Some (newTile 1 2); Some (newTile 2 4)];
                               [Some (newTile 3 4); Some (newTile 4 2)]])) by solve_WF.
  split; [exact Hwf|]. split; [reflexivity|].
  exact (Game_move_stuck
           (mkGame 12 (mkBoard 2 [[Some (newTile 1 2); Some (newTile 2 4)];
                                  [Some (newTile 3 4); Some (newTile 4 2)]]) false 5)
           "down" 900 0 true 9 Hwf eq_refl).
Defined.

(** [findTileOrigin] on the state captured by [captureCurrentState], from a
    cell of the board: the cell it returns holds a tile of the searched
    value on the previous board, lies on the same column (up, down) or row
    (left, right), on the side the loop scans, and is the nearest such
    cell: no cell between it and the start holds that value. *)
Theorem findTileOrigin_nearest (b : board) (v : Z) (r c r' c' : nat) (d : string) :
  (r < dim b)%nat -> (c < dim b)%nat ->
  findTileOrigin (dim b) (captureCurrentState b) v r c d = Some (r', c') ->
  (r' < dim b)%nat /\ (c' < dim b)%nat /\
  option_map value (get (grid b) r' c') = Some v /\
  ((d = "up"%string /\ c' = c /\ (r <= r')%nat /\
    forall x, (r <= x < r')%nat -> option_map value (get (grid b) x c) <> Some v) \/
   (d = "down"%string /\ c' = c /\ (r' <= r)%nat /\
    forall x, (r' < x <= r)%nat -> option_map value (get (grid b) x c) <> Some v) \/
   (d = "left"%string /\ r' = r /\ (c <= c')%nat /\
    forall y, (c <= y < c')%nat -> option_map value (get (grid b) r y) <> Some v) \/
   (d = "right"%string /\ r' = r /\ (c' <= c)%nat /\
    forall y, (c' < y <= c)%nat -> option_map value (get (grid b) r y) <> Some v)).
Proof.
  intros Hr Hc H. unfold findTileOrigin in H.
  destruct (String.eqb d "up") eqn:Du; [|destruct (String.eqb d "down") eqn:Dd;
    [|destruct (String.eqb d "left") eqn:Dl; [|destruct (String.eqb d "right") eqn:Dr]]];
    [| | | |discriminate H].
  - apply String.eqb_eq in Du. subst d.
    destruct (find _ (seq r (dim b - r))) as [x|] eqn:F; [|discriminate H].
    cbn in H. injection H as <- <-.
    apply find_seq_first in F as (F1 & F2 & F3).
    apply stateHas_capture in F2 as (_ & _ & F2).
    split; [lia|]. split; [exact Hc|]. split; [exact F2|].
    left. split; [reflexivity|]. split; [reflexivity|]. split; [lia|].
    intros y Hy Ey. assert (Hs : stateHas (captureCurrentState b) v y c = true)
      by (apply stateHas_capture; split; [lia|]; split; [exact Hc|exact Ey]).
    rewrite F3 in Hs by lia. discriminate Hs.
  - apply String.eqb_eq in Dd. subst d.
    destruct (find _ (List.rev (seq 0 (S r)))) as [x|] eqn:F; [|discriminate H].
    cbn in H. injection H as <- <-.
    apply find_rev_seq in F as (F1 & F2 & F3).
    apply stateHas_capture in F2 as (_ & _ & F2).
    split; [lia|]. split; [exact Hc|]. split; [exact F2|].
    right; left. split; [reflexivity|]. split; [reflexivity|]. split; [lia|].
    intros y Hy Ey. assert (Hs : stateHas (captureCurrentState b) v y c = true)
      by (apply stateHas_capture; split; [lia|]; split; [exact Hc|exact Ey]).
    rewrite F3 in Hs by lia. discriminate Hs.
  - apply String.eqb_eq in Dl. subst d.
    destruct (find _ (seq c (dim b - c))) as [x|] eqn:F; [|discriminate H].
    cbn in H. injection H as <- <-.
    apply find_seq_first in F as (F1 & F2 & F3).
    apply stateHas_capture in F2 as (_ & _ & F2).
    split; [exact Hr|]. split; [lia|]. split; [exact F2|].
    right; right; left. split; [reflexivity|]. split; [reflexivity|]. split; [lia|].
    intros y Hy Ey. assert (Hs : stateHas (captureCurrentState b) v r y = true)
      by (apply stateHas_capture; split; [exact Hr|]; split; [lia|exact Ey]).
    rewrite F3 in Hs by lia. discriminate Hs.
  - apply String.eqb_eq in Dr. subst d.
    destruct (find _ (List.rev (seq 0 (S c)))) as [x|] eqn:F; [|discriminate H].
    cbn in H. injection H as <- <-.
    apply find_rev_seq in F as (F1 & F2 & F3).
    apply stateHas_capture in F2 as (_ & _ & F2).
    split; [exact Hr|]. split; [lia|]. split; [exact F2|].
    right; right; right. split; [reflexivity|]. split; [reflexivity|]. split; [lia|].
    intros y Hy Ey. assert (Hs : stateHas (captureCurrentState b) v r y = true)
      by (apply stateHas_capture; split; [exact Hr|]; split; [lia|exact Ey]).
    rewrite F3 in Hs by lia. discriminate Hs.
Qed.

Lemma findTileOrigin_nearest_witness :
  (0 < dim (mkBoard 2 [[None; None]; [Some (newTile 1 4); None]]))%nat /\
  (0 < dim (mkBoard 2 [[None; None]; [Some (newTile 1 4); None]]))%nat /\
  findTileOrigin (dim (mkBoard 2 [[None; None]; [Some (newTile 1 4); None]]))
    (captureCurrentState (mkBoard 2 [[None; None]; [Some (newTile 1 4); None]]))
    4 0 0 "up" = Some (1%nat, 0%nat) /\
  ((1 < dim (mkBoard 2 [[None; None]; [Some (newTile 1 4); None]]))%nat /\
   (0 < dim (mkBoard 2 [[None; None]; [Some (newTile 1 4); None]]))%nat /\
   option_map value (get (grid (mkBoard 2 [[None; None]; [Some (newTile 1 4); None]])) 1 0)
   = Some 4 /\
   (("up"%string = "up"%string /\ 0%nat = 0%nat /\ (0 <= 1)%nat /\
     forall x, (0 <= x < 1)%nat ->
       option_map value (get (grid (mkBoard 2 [[None; None]; [Some (newTile 1 4); None]])) x 0)
       <> Some 4) \/
    ("up"%string = "down"%string /\ 0%nat = 0%nat /\ (1 <= 0)%nat /\
     forall x, (1 < x <= 0)%nat ->
       option_map value (get (grid (mkBoard 2 [[None; None]; [Some (newTile 1 4); None]])) x 0)
       <> Some 4) \/
    ("up"%string = "left"%string /\ 1%nat = 0%nat /\ (0 <= 0)%nat /\
     forall y, (0 <= y < 0)%nat ->
       option_map value (get (grid (mkBoard 2 [[None; None]; [Some (newTile 1 4); None]])) 0 y)
       <> Some 4) \/
    ("up"%string = "right"%string /\ 1%nat = 0%nat /\ (0 <= 0)%nat /\
     forall y, (0 < y <= 0)%nat ->
       option_map value (get (grid (mkBoard 2 [[None; None]; [Some (newTile 1 4); None]])) 0 y)
       <> Some 4))).
Proof.
  split; [vm_compute; lia|]. split; [vm_compute; lia|]. split; [reflexivity|].
  exact (findTileOrigin_nearest (mkBoard 2 [[None; None]; [Some (newTile 1 4); None]])
           4 0 0 1 0 "up" ltac:(vm_compute; lia) ltac:(vm_compute; lia) eq_refl).
Defined.

(** The [keydown] handler of main.js prevents the default action of a key
    exactly when it passes a direction to [game.move]; every direction it
    passes is one [moveWithScore] handles; the test keys of the win and
    game-over messages neither prevent the default action nor move. *)
Theorem onKeydown_spec (key : string) :
  (fst (fst (onKeydown key)) = true <-> snd (fst (onKeydown key)) <> None) /\
  (forall d, snd (fst (onKeydown key)) = Some d -> axis d <> None) /\
  (snd (onKeydown key) <> None ->
   fst (fst (onKeydown key)) = false /\ snd (fst (onKeydown key)) = None).
Proof.
  destruct (in_dec string_dec key gameKeys) as [Hin|Hout].
  - unfold gameKeys in Hin.
    repeat (destruct Hin as [<-|Hin]; [
      split; [split; [intros _ H; discriminate H|reflexivity]|];
      split; [intros d0 E; injection E as <-; intros H; discriminate H|];
      intros H; exfalso; apply H; reflexivity|]).
    destruct Hin.
  - assert (Hsub : forall l, incl l gameKeys -> js_includes l key = false).
    { intros l Hl. destruct (js_includes l key) eqn:K; [|reflexivity].
      apply js_includes_In, Hl in K. contradiction. }
    unfold onKeydown. cbv zeta.
    rewrite (Hsub gameKeys) by apply incl_refl.
    rewrite (Hsub ["ArrowUp"; "w"; "W"]%string) by (intros x Hx; unfold gameKeys; simpl in *; tauto).
    rewrite (Hsub ["ArrowDown"; "s"; "S"]%string) by (intros x Hx; unfold gameKeys; simpl in *; tauto).
    rewrite (Hsub ["ArrowLeft"; "a"; "A"]%string) by (intros x Hx; unfold gameKeys; simpl in *; tauto).
    rewrite (Hsub ["ArrowRight"; "d"; "D"]%string) by (intros x Hx; unfold gameKeys; simpl in *; tauto).
    cbn [fst snd].
    split; [split; [discriminate|intros H; exfalso; apply H; reflexivity]|].
    split; [intros d0 E; discriminate E|]. intros _. split; reflexivity.
Qed.
